(** * Football scrapers: a model of the harvesting core and its properties

    The development embeds the pure and the state-passing parts of
    [who_scored_scraper.py], [fbref_scraper.py], [sofifa_scraper.py] and
    [scrape_player_urls.py]:

    - [PyStr]: the Python string operations the scrapers call;
    - [WhoScored]: header normalisation and de-duplication, the challenge
      test, the per-tab pagination loop, the CSV writer;
    - [FBref]: header flattening;
    - [SoFIFA]: column order, the incremental CSV sink, the per-URL retry
      loop and its backoff delay;
    - [PlayerURLs]: the de-duplicating URL file and the listing loop.

    The first part holds the definitions, the second part the lemmas. *)

From Stdlib Require Import ZArith NArith QArith Lia Lqa List String Ascii.
From stdpp Require Import base decidable option list sorting lexico
  gmap fin_sets strings pretty.


(** A Python [str] is a sequence of Unicode code points. *)
Abbreviation char := N.
Abbreviation str := (list N).

(* ===================================================================== *)
(** * Part I: the model *)
(* ===================================================================== *)

Module PyStr.

(** A string literal of the source, as code points (ASCII literals only). *)
Definition lit (s : string) : str :=
  List.map N_of_ascii (list_ascii_of_string s).

(** [str(n)] for a non-negative [int]. *)
Definition str_of_nat (n : nat) : str := lit (pretty n).

(** [c.isspace()] for one code point: CPython's [_PyUnicode_IsWhitespace].
    The regular-expression class [\s] on [str] patterns is the same set. *)
Definition isspace (c : char) : bool :=
  ((9 <=? c) && (c <=? 13) || (28 <=? c) && (c <=? 32)
   || (c =? 133) || (c =? 160) || (c =? 5760)
   || (8192 <=? c) && (c <=? 8202)
   || (c =? 8232) || (c =? 8233) || (c =? 8239) || (c =? 8287)
   || (c =? 12288))%N.

(** ['a' <= c <= 'z'] and ['0' <= c <= '9']. *)
Definition is_lower_az (c : char) : bool := ((97 <=? c) && (c <=? 122))%N.
Definition is_digit (c : char) : bool := ((48 <=? c) && (c <=? 57))%N.
Definition is_upper_AZ (c : char) : bool := ((65 <=? c) && (c <=? 90))%N.
Definition is_ascii (c : char) : bool := (c <? 128)%N.

(** [str.lower()] restricted to ASCII input: only [A-Z] move. *)
Definition ascii_lower (c : char) : char :=
  if is_upper_AZ c then (c + 32)%N else c.

(** [s.lstrip(...)], [s.rstrip(...)], [s.strip(...)] for a set of
    characters given as a predicate. *)
Fixpoint lstrip_by (p : char -> bool) (s : str) : str :=
  match s with
  | [] => []
  | c :: s' => if p c then lstrip_by p s' else s
  end.
Definition rstrip_by (p : char -> bool) (s : str) : str :=
  rev (lstrip_by p (rev s)).
Definition strip_by (p : char -> bool) (s : str) : str :=
  rstrip_by p (lstrip_by p s).

(** [s.strip()] and [s.strip(chars)]. *)
Definition strip (s : str) : str := strip_by isspace s.
Definition in_chars (chars : str) (c : char) : bool := bool_decide (c ∈ chars).
Definition strip_chars (chars : str) (s : str) : str :=
  strip_by (in_chars chars) s.

(** [sep.join(parts)]. *)
Fixpoint join (sep : str) (parts : list str) : str :=
  match parts with
  | [] => []
  | [x] => x
  | x :: rest => x ++ sep ++ join sep rest
  end.

(** [needle in hay]. *)
Fixpoint startswith (hay needle : str) {struct needle} : bool :=
  match needle, hay with
  | [], _ => true
  | _ :: _, [] => false
  | a :: needle', b :: hay' => (a =? b)%N && startswith hay' needle'
  end.
Fixpoint contains (needle hay : str) : bool :=
  startswith hay needle ||
  match hay with
  | [] => false
  | _ :: hay' => contains needle hay'
  end.

(** What [needle in hay] decides: [needle] occurs in [hay]. *)
Definition occurs_in (needle hay : str) : Prop :=
  exists pre post, hay = pre ++ needle ++ post.

(** [re.sub(r"[class]+", repl, s)]: every maximal run of characters of the
    class is replaced by [repl]. [in_run] tells that the previous character
    belonged to the run being replaced. *)
Fixpoint sub_runs_from (cls : char -> bool) (repl : str) (in_run : bool)
    (s : str) : str :=
  match s with
  | [] => []
  | c :: s' =>
      if cls c
      then (if in_run then [] else repl) ++ sub_runs_from cls repl true s'
      else c :: sub_runs_from cls repl false s'
  end.
Definition re_sub_runs (cls : char -> bool) (repl : str) (s : str) : str :=
  sub_runs_from cls repl false s.

(** Python compares strings lexicographically by code point; [lexico] on
    [list N] is that strict order. [sorted] only ever asks [y < x]. *)
Definition str_le (x y : str) : Prop := ¬ lexico y x.
#[export] Instance str_le_dec (x y : str) : Decision (str_le x y).
Proof. unfold str_le. apply _. Defined.
Definition sorted (l : list str) : list str := merge_sort str_le l.

(** Truthiness of a string: [if s]. *)
Definition truthy (s : str) : bool :=
  match s with [] => false | _ :: _ => true end.

(** [re.split(r"[class]+", s)]: the pieces between the maximal runs of
    characters of the class, in order; a run at either end of [s] leaves
    an empty piece there, and the empty string gives one empty piece. *)
Fixpoint split_runs_from (cls : char -> bool) (in_run : bool) (s : str)
    : list str :=
  match s with
  | [] => [[]]
  | c :: s' =>
      if cls c then
        if in_run then split_runs_from cls true s'
        else [] :: split_runs_from cls true s'
      else
        match split_runs_from cls false s' with
        | piece :: pieces => (c :: piece) :: pieces
        | [] => [[c]]
        end
  end.
Definition re_split_runs (cls : char -> bool) (s : str) : list str :=
  split_runs_from cls false s.

(** Text as it is read from a file opened in text mode without
    [newline='']: universal newlines turn [\r\n] and a lone [\r] into
    [\n]. *)
Fixpoint universal_newlines (s : str) : str :=
  match s with
  | [] => []
  | c :: s' =>
      if (c =? 13)%N then
        match s' with
        | d :: s'' =>
            if (d =? 10)%N then 10%N :: universal_newlines s''
            else 10%N :: universal_newlines s'
        | [] => [10%N]
        end
      else c :: universal_newlines s'
  end.

(** [s.split(sep)] for a separator of one character. *)
Fixpoint split_on (s : str) (sep : char) : list str :=
  match s with
  | [] => [[]]
  | c :: s' =>
      if (c =? sep)%N then [] :: split_on s' sep
      else
        match split_on s' sep with
        | piece :: pieces => (c :: piece) :: pieces
        | [] => [[c]]
        end
  end.

(** Equality of strings and distinctness of a list of strings as boolean
    tests, for the fixed lists of column names. *)
Fixpoint str_eqb (s t : str) : bool :=
  match s, t with
  | [], [] => true
  | a :: s, b :: t => N.eqb a b && str_eqb s t
  | _, _ => false
  end.

Fixpoint distinct (l : list str) : bool :=
  match l with
  | [] => true
  | x :: l => negb (existsb (str_eqb x) l) && distinct l
  end.

End PyStr.
Import PyStr.


(** The [csv] module: a file is a list of rows, a row a list of cells
    (quoting and line endings are the library's business). A record is a
    [dict] from field names to cell texts. *)
Module Csv.

Abbreviation row := (list str).
Abbreviation record := (gmap str str).

(** The cells of a record in the order of the field names, [restval=""]
    standing in for a missing key. *)
Definition row_of (fieldnames : list str) (rowdict : record) : row :=
  List.map (fun key => default [] (rowdict !! key)) fieldnames.

(** [DictWriter._dict_to_list] with the default [extrasaction="raise"]:
    [None] stands for the [ValueError] raised when the record has a key
    outside [fieldnames]. *)
Definition _dict_to_list (fieldnames : list str) (rowdict : record)
    : option row :=
  if decide (dom rowdict ⊆ list_to_set fieldnames)
  then Some (row_of fieldnames rowdict)
  else None.

End Csv.
Import Csv.

(* --------------------------------------------------------------------- *)
(** ** who_scored_scraper.py *)
(* --------------------------------------------------------------------- *)

Module WhoScored.

Definition is_pct_slash (c : char) : bool :=
  ((c =? N_of_ascii "%") || (c =? N_of_ascii "/"))%N.
Definition not_alnum_space (c : char) : bool :=
  negb (is_lower_az c || is_digit c || isspace c).

Section Normalize.
(** [str.lower()]: a function of the whole string (Unicode case
    mapping depends on context and may change the length). *)
Variable lower : str -> str.

Definition _normalize_header (header : str) : str :=
  let normalized := lower (strip header) in
  let normalized := re_sub_runs is_pct_slash (lit " ") normalized in
  let normalized := re_sub_runs not_alnum_space (lit " ") normalized in
  strip_chars (lit "_") (re_sub_runs isspace (lit "_") normalized).
End Normalize.

(** The shape of a normalised header: words of [a-z0-9] joined by single
    underscores, no underscore in front or at the end. [sep_ok p prev s]
    tells that no two characters of the class [p] are neighbours in [s]
    (nor the first one a neighbour of a previous one, when [prev]);
    [head_free p s] that [s] does not begin with one. *)
Definition word_char (c : char) : bool := is_lower_az c || is_digit c.
Fixpoint sep_ok (p : char -> bool) (prev : bool) (s : str) : bool :=
  match s with
  | [] => true
  | c :: s' => if p c then negb prev && sep_ok p true s' else sep_ok p false s'
  end.
Definition head_free (p : char -> bool) (s : str) : bool :=
  match s with
  | [] => true
  | c :: _ => negb (p c)
  end.
Definition normal_form (s : str) : bool :=
  forallb (fun c => word_char c || in_chars (lit "_") c) s
  && sep_ok (in_chars (lit "_")) false s
  && head_free (in_chars (lit "_")) s
  && head_free (in_chars (lit "_")) (rev s).

(** The loop of [_dedupe_headers]: [seen] counts the occurrences so far,
    [result] grows at its end. *)
Fixpoint dedupe_loop (headers : list str) (seen : gmap str nat)
    (result : list str) : list str :=
  match headers with
  | [] => result
  | header :: rest =>
      match seen !! header with
      | None => dedupe_loop rest (<[header := 1]> seen) (result ++ [header])
      | Some n =>
          let seen' := <[header := n + 1]> seen in
          dedupe_loop rest seen'
            (result ++ [header ++ lit "_" ++ str_of_nat (n + 1)])
      end
  end.
Definition _dedupe_headers (headers : list str) : list str :=
  dedupe_loop headers ∅ [].

(** The words of the specification for the same: the header at position
    [i] keeps its text when it is the first of its kind, and gets the
    suffix [_k] when it is the [k]-th. *)
Definition occurrences (header : str) (headers : list str) : nat :=
  length (filter (fun h => h = header) headers).
Definition suffixed (headers : list str) (i : nat) (header : str) : str :=
  match occurrences header (take i headers) with
  | O => header
  | S k => header ++ lit "_" ++ str_of_nat (S (S k))
  end.

Definition markers : list str :=
  [ lit "Checking your browser"; lit "Just a moment";
    lit "cf-browser-verification"; lit "challenge-platform" ].

(** [any(marker in content for marker in markers)]. *)
Definition _is_cloudflare_challenge (content : str) : bool :=
  existsb (fun marker => contains marker content) markers.

(** *** What the two [page.evaluate] calls of [_scrape_tab] return *)

(** One [tbody tr] as the script returns it. *)
Record js_row := {
    values : list str;
    playerName : str;
    playerUrl : str;
    teamName : str;
    teamUrl : str;
    playerAge : str;
    playerPositions : str
  }.

(** The paging element: the numbers of ["Page X / Y"] when the text
    matches, and whether the [#next] anchor is there and not disabled. *)
Record paging := {
    page_match : option (nat * nat);
    next_enabled : bool
  }.

(** The part of the document the scraper looks at, for the current tab. *)
Record view := {
    paging_el : option paging;
    table_el : option (list str * list js_row)
  }.

Record page_info := { current : nat; total : nat; hasNext : bool }.

Definition read_page_info (v : view) : page_info :=
  match paging_el v with
  | None => {| current := 1; total := 1; hasNext := false |}
  | Some p =>
      match page_match p with
      | Some (c, t) => {| current := c; total := t; hasNext := next_enabled p |}
      | None => {| current := 1; total := 1; hasNext := next_enabled p |}
      end
  end.

(** [{ headers, rows }], both empty without a container or a table. *)
Definition read_table_data (v : view) : list str * list js_row :=
  default ([], []) (table_el v).

(** The predicate [wait_for_function] polls in [_click_next]. *)
Definition page_changed (v : view) (current_page : nat) : bool :=
  match paging_el v with
  | None => true
  | Some p =>
      match page_match p with
      | None => true
      | Some (nextPage, _) => negb (nextPage =? current_page)%nat
      end
  end.

(** [row_data]: the provenance fields, then one cell per header. *)
Definition provenance (url tab : str) (current_page : nat) (row : js_row)
    : record :=
  <[lit "player_positions" := playerPositions row]>
  (<[lit "player_age" := playerAge row]>
  (<[lit "team_url" := teamUrl row]>
  (<[lit "team_name" := teamName row]>
  (<[lit "player_url" := playerUrl row]>
  (<[lit "player_name" := playerName row]>
  (<[lit "page" := str_of_nat current_page]>
  (<[lit "tab" := tab]>
  (<[lit "source_url" := url]> ∅)))))))).

Fixpoint fill_values (idx : nat) (headers : list str) (vals : list str)
    (row_data : record) : record :=
  match headers with
  | [] => row_data
  | header :: rest =>
      if decide (header = lit "player")
      then fill_values (S idx) rest vals row_data
      else
        match vals !! idx with
        | Some v => fill_values (S idx) rest vals (<[header := v]> row_data)
        | None => fill_values (S idx) rest vals row_data
        end
  end.

(** [self.max_pages and current_page >= self.max_pages]. *)
Definition ceiling_reached (max_pages : option Z) (current_page : nat) : bool :=
  match max_pages with
  | None => false
  | Some m => negb (m =? 0)%Z && (m <=? Z.of_nat current_page)%Z
  end.

Inductive stop_reason := NoRows | MaxPages | NoNext.

(** How [_scrape_tab] ends: a [break], the [TimeoutError] of
    [_click_next] passing through, or the loop still running when the
    fuel of the model is spent. *)
Inductive tab_outcome :=
  | Stopped (r : stop_reason)
  | RaisedTimeout
  | StillRunning.

Inductive event :=
  | ReadPage (current_page : nat)
  | ClickNext (current_page : nat).

Section Browser.
(** The browser and the site behind it: a state [W], what the scraper
    sees of it, how it reacts to a click on [#next], how it moves
    between two polls of [wait_for_function], and during the pause
    [wait_for_timeout] that follows a page turn. [polls] is the
    number of further polls the 30 s budget allows. *)
Context {W : Type}.
Variable look : W -> view.
Variable press_next : W -> W.
Variable tick : W -> W.
Variable pause : W -> W.
Variable polls : nat.
Variable lower : str -> str.

(** [page.wait_for_function(..., timeout=30000)]: [None] is the
    [TimeoutError]. *)
Fixpoint wait_for_function (n : nat) (w : W) (current_page : nat)
    : option W :=
  if page_changed (look w) current_page then Some w
  else
    match n with
    | O => None
    | S n' => wait_for_function n' (tick w) current_page
    end.

Definition _click_next (w : W) (current_page : nat) : option W :=
  let clicked :=
    match paging_el (look w) with
    | None => w
    | Some p => if next_enabled p then press_next w else w
    end in
  wait_for_function polls clicked current_page.

Record tab_state := {
    world : W;
    rows : list record;
    trace : list event
  }.

Definition page_rows (url tab : str) (current_page : nat)
    (table_data : list str * list js_row) : list record :=
  let headers :=
    _dedupe_headers (List.map (_normalize_header lower) table_data.1) in
  List.map (fun row =>
    fill_values 0 headers (values row)
      (provenance url tab current_page row)) table_data.2.

(** The [while True] loop of [_scrape_tab], from the state the tab
    click leaves. *)
Fixpoint _scrape_tab (fuel : nat) (max_pages : option Z) (url tab : str)
    (st : tab_state) : tab_outcome * tab_state :=
  match fuel with
  | O => (StillRunning, st)
  | S fuel' =>
      let info := read_page_info (look (world st)) in
      let current_page := current info in
      let table_data := read_table_data (look (world st)) in
      let st := {| world := world st; rows := rows st;
                   trace := trace st ++ [ReadPage current_page] |} in
      match table_data.2 with
      | [] => (Stopped NoRows, st)
      | _ :: _ =>
          let st := {| world := world st;
                       rows := rows st ++ page_rows url tab current_page table_data;
                       trace := trace st |} in
          if ceiling_reached max_pages current_page
          then (Stopped MaxPages, st)
          else if negb (hasNext info)
          then (Stopped NoNext, st)
          else
            let st := {| world := world st; rows := rows st;
                         trace := trace st ++ [ClickNext current_page] |} in
            match _click_next (world st) current_page with
            | None => (RaisedTimeout, st)
            | Some w' =>
                _scrape_tab fuel' max_pages url tab
                  {| world := pause w'; rows := rows st; trace := trace st |}
            end
      end
  end.
(** One full page turn: [_click_next] from the page just read, then the
    pause. *)
Definition turn_page (w : W) : option W :=
  match _click_next w (current (read_page_info (look w))) with
  | Some w' => Some (pause w')
  | None => None
  end.

(** The state the loop reads its [k]-th next page from, when every turn on
    the way went through. *)
Fixpoint page_after (k : nat) (w : W) : option W :=
  match k with
  | O => Some w
  | S k' =>
      match turn_page w with
      | Some w' => page_after k' w'
      | None => None
      end
  end.

(** [tick] applied [k] times. *)
Fixpoint ticks (k : nat) (w : W) : W :=
  match k with
  | O => w
  | S k' => ticks k' (tick w)
  end.

(** The state [wait_for_function] starts polling from. *)
Definition after_click (w : W) : W :=
  match paging_el (look w) with
  | None => w
  | Some p => if next_enabled p then press_next w else w
  end.
End Browser.

Definition is_read (e : event) : bool :=
  match e with ReadPage _ => true | ClickNext _ => false end.
Definition is_click (e : event) : bool :=
  match e with ClickNext _ => true | ReadPage _ => false end.
(** Pages read and advancement requests made, in a trace. *)
Definition reads (t : list event) : nat := length (List.filter is_read t).
Definition clicks (t : list event) : nat := length (List.filter is_click t).

Definition base_columns : list str :=
  [ lit "source_url"; lit "tab"; lit "page"; lit "player_name";
    lit "player_url"; lit "team_name"; lit "team_url"; lit "player_age";
    lit "player_positions" ].

(** [all_keys]: the base columns and every key of every row. *)
Definition all_keys (rows : list record) : gset str :=
  foldl (fun keys row => keys ∪ dom row) (list_to_set base_columns) rows.

Definition csv_columns (rows : list record) : list str :=
  let extra_columns :=
    sorted (filter (fun key => key ∉ base_columns) (elements (all_keys rows))) in
  base_columns ++ extra_columns.

(** [writer.writerows]: rows are written until one raises. *)
Fixpoint writerows (columns : list str) (rows : list record)
    (file : list row) : list row * bool :=
  match rows with
  | [] => (file, true)
  | r :: rest =>
      match _dict_to_list columns r with
      | Some cells => writerows columns rest (file ++ [cells])
      | None => (file, false)
      end
  end.

(** [_write_csv]: the output file after the call ([None]: no file), and
    whether it returned without a [ValueError]. *)
Definition _write_csv (rows : list record) (file : option (list row))
    : option (list row) * bool :=
  match rows with
  | [] => (file, true)
  | _ :: _ =>
      let columns := csv_columns rows in
      let (written, ok) := writerows columns rows [columns] in
      (Some written, ok)
  end.

(** [_clean_text]: [value or ""] takes [None] to the empty string. *)
Definition _clean_text (value : option str) : str :=
  strip (re_sub_runs isspace (lit " ") (default [] value)).

(** The class [[\n,]] of [_parse_urls]. *)
Definition is_newline_comma (c : char) : bool := ((c =? 10) || (c =? 44))%N.

Definition _parse_urls (raw : str) : list str :=
  List.filter truthy (List.map strip (re_split_runs is_newline_comma raw)).

(** A URL as [_parse_urls] gives it: not empty, without surrounding white
    space, without a comma or a line break. *)
Definition clean_url (u : str) : Prop :=
  u <> [] /\ strip u = u /\ Forall (fun c => is_newline_comma c = false) u.

Record TabSpec := {
  name : str;
  tab_link_selector : str;
  container_selector : str;
  paging_selector : str
}.

(** The six entries of [TABS] differ in the tab name only. *)
Definition tab_spec (tab : string) : TabSpec :=
  {| name := lit tab;
     tab_link_selector :=
       lit ("#stage-top-player-stats-options a[href=" ++ String "034" ""
            ++ "#stage-top-player-stats-" ++ tab ++ String "034" "" ++ "]");
     container_selector := lit ("#stage-top-player-stats-" ++ tab);
     paging_selector := lit ("#statistics-paging-" ++ tab) |}.

Definition TABS : list TabSpec :=
  List.map tab_spec
    ["summary"; "defensive"; "offensive"; "passing"; "xg"; "detailed"]%string.

(** [self.tabs = tabs or [tab.name for tab in TABS]] of [__init__]. *)
Definition init_tabs (tabs : option (list str)) : list str :=
  match tabs with
  | Some (t :: ts) => t :: ts
  | _ => List.map name TABS
  end.

Section Tabs.
Variable lower : str -> str.

Definition selected_names (tabs : list str) : gset str :=
  list_to_set (List.map (fun name => lower (strip name)) tabs).

Definition _selected_tabs (tabs : list str) : list TabSpec :=
  List.filter (fun tab => bool_decide (name tab ∈ selected_names tabs)) TABS.
End Tabs.

(** [main] up to the scraper object. [main_urls] gives the URLs, [None]
    standing for [SystemExit("No URLs provided.")]; [typed] is the line
    [input] returns when [--urls] is missing or empty. *)
Definition main_urls (args_urls : option str) (typed : str) : option (list str) :=
  let raw := match args_urls with Some (c :: s) => c :: s | _ => typed end in
  match _parse_urls raw with
  | [] => None
  | u :: us => Some (u :: us)
  end.

(** The [tabs] argument [main] builds from [--tabs]. *)
Definition main_tabs (lower : str -> str) (args_tabs : option str)
    : option (list str) :=
  match args_tabs with
  | Some (c :: s) =>
      Some (List.map (fun tab => lower (strip tab))
              (List.filter (fun tab => truthy (strip tab)) (split_on (c :: s) 44)))
  | _ => None
  end.

(** A character [_parse_urls] drops: a separator or white space. *)
Definition blank (c : char) : bool := is_newline_comma c || isspace c.

End WhoScored.

(* --------------------------------------------------------------------- *)
(** ** fbref_scraper.py *)
(* --------------------------------------------------------------------- *)

Module FBref.

(** A column label of the DataFrame: a string, or the tuple of the levels
    of a multi-level header. *)
Inductive column_label :=
| Flat (col : str)
| Levels (col : list str).

(** One turn of the loop of [_flatten_headers]; [str(c)] of a string is
    the string. *)
Definition flatten_label (col : column_label) : str :=
  match col with
  | Levels levels =>
      join (lit " ") (List.map strip (List.filter truthy levels))
  | Flat c => strip c
  end.

(** The words of the specification: the non-empty texts of the levels,
    joined left to right with single spaces. *)
Definition flatten_spec (texts : list str) : str :=
  join (lit " ") (List.filter truthy texts).

(** [_flatten_headers]: the new value of [df.columns]. *)
Definition _flatten_headers (columns : list column_label) : list str :=
  List.map flatten_label columns.

Section Fetch.
(** The inside of a [div] and the table read from it; the parsing of the
    comment and of the table belongs to BeautifulSoup and pandas. *)
Context {Body DataFrame : Type}.
Variable _extract_table_from_div : Body -> option str -> option DataFrame.

(** The loop of [fetch_fbref_tables] over the [div]s that carry an [id],
    in document order: only an [id] that begins with [all_] is looked
    at. *)
Definition collect_tables (divs : list (str * Body)) (table_id : option str)
    : gmap str DataFrame :=
  foldl (fun tables div =>
    if startswith div.1 (lit "all_") then
      let key := drop 4 div.1 in
      if bool_decide (is_Some table_id /\ table_id <> Some key) then tables
      else
        match _extract_table_from_div div.2 (Some key) with
        | Some df => <[key := df]> tables
        | None => tables
        end
    else tables) ∅ divs.

(** What a [div] gives for a table identifier: the table read from it
    when its [id] is [all_] followed by the identifier. *)
Definition table_in (key : str) (div : str * Body) : option DataFrame :=
  if decide (div.1 = lit "all_" ++ key)
  then _extract_table_from_div div.2 (Some key)
  else None.

(** How [main] ends: a [return] with the exit status, or an exception
    that leaves [main]. *)
Inductive main_end :=
| Returned (status : Z)
| Raised.

(** [main] once the arguments are parsed. [fetched] is what
    [fetch_fbref_tables] gives, [None] standing for an exception, which
    [main] catches. The stage that follows is outside the [try]:
    [save tables dir] and [show tables] tell whether [save_tables_to_csv]
    and the loop of [print] come back without an exception. *)
Definition main (fetched : option (gmap str DataFrame)) (output : option str)
    (save : gmap str DataFrame -> str -> bool)
    (show : gmap str DataFrame -> bool) : main_end :=
  match fetched with
  | None => Returned 1
  | Some tables =>
      if bool_decide (tables = ∅) then Returned 1
      else
        let done_ :=
          match output with
          | Some (c :: dir) => save tables (c :: dir)
          | _ => show tables
          end in
        if done_ then Returned 0 else Raised
  end.
End Fetch.

End FBref.

(* --------------------------------------------------------------------- *)
(** ** sofifa_scraper.py *)
(* --------------------------------------------------------------------- *)

Module SoFIFA.

Definition priority_cols : list str := List.map lit
  [ "player_id"; "version"; "name"; "full_name"; "description"; "image";
    "height_cm"; "weight_kg"; "dob"; "positions"; "overall_rating"; "potential";
    "value"; "wage"; "preferred_foot"; "weak_foot"; "skill_moves";
    "international_reputation"; "body_type"; "real_face";
    "release_clause"; "specialities"; "club_id"; "club_name"; "club_league_id";
    "club_league_name"; "club_logo"; "club_rating"; "club_position";
    "club_kit_number"; "club_joined"; "club_contract_valid_until";
    "country_id"; "country_name"; "country_league_id"; "country_league_name";
    "country_flag"; "country_rating"; "country_position"; "country_kit_number";
    "attacking_crossing"; "attacking_finishing"; "attacking_heading_accuracy";
    "attacking_short_passing"; "attacking_volleys";
    "skill_dribbling"; "skill_curve"; "skill_fk_accuracy"; "skill_long_passing";
    "skill_ball_control";
    "movement_acceleration"; "movement_sprint_speed"; "movement_agility";
    "movement_reactions"; "movement_balance";
    "power_shot_power"; "power_jumping"; "power_stamina"; "power_strength";
    "power_long_shots";
    "mentality_aggression"; "mentality_interceptions"; "mentality_att_positioning";
    "mentality_vision"; "mentality_penalties"; "mentality_composure";
    "defending_defensive_awareness"; "defending_standing_tackle";
    "defending_sliding_tackle";
    "goalkeeping_gk_diving"; "goalkeeping_gk_handling"; "goalkeeping_gk_kicking";
    "goalkeeping_gk_positioning"; "goalkeeping_gk_reflexes";
    "play_styles"; "url" ]%string.

Definition _get_column_order (stats_dict : record) : list str :=
  let all_keys := dom stats_dict in
  let other_cols :=
    sorted (filter (fun col => col ∉ priority_cols) (elements all_keys)) in
  filter (fun col => col ∈ all_keys) priority_cols ++ other_cols.

(** The delay of a retry: [(2 ** retries) + random.uniform(1, 5)], with the
    value drawn for the jitter as an argument (a rational stands for the
    float). *)
Definition exponential (retries : nat) : Z := 2 ^ Z.of_nat retries.
Definition backoff_delay (retries : nat) (jitter : Q) : Q :=
  (inject_Z (exponential retries) + jitter)%Q.

(** What the retry loop does that the outside can see. [Backoff delay] is
    the [asyncio.sleep(delay)] before a retry: it lasts [delay jitter]
    seconds, [jitter] being the value [random.uniform(1, 5)] returns.
    [RequestPause] is the sleep of [random.uniform(1, 3)] seconds between
    requests, [Goto url] the navigation, [Skipped url] the report that
    the URL is given up. *)
Inductive event :=
| Backoff (delay : Q -> Q)
| RequestPause
| Goto (url : str)
| Skipped (url : str).

(** The scraper object and the file [self.output_file] names ([None]: no
    such file). *)
Record scraper := {
  columns : option (list str);
  csv_initialized : bool;
  player_stats : list record;
  output : option (list row);
  log : list event
}.

Definition fresh (output : option (list row)) : scraper :=
  {| columns := None; csv_initialized := false; player_stats := [];
     output := output; log := [] |}.

(** [save_player_to_csv]: the scraper after the call, and [false] when
    [writer.writerow] raised [ValueError] (the [with] block has closed the
    file by then, whatever was written stays). *)
Definition save_player_to_csv (self : scraper) (stats : record)
    : scraper * bool :=
  let file_exists :=
    bool_decide (is_Some (output self)) && csv_initialized self in
  let cols :=
    match columns self with
    | None => _get_column_order stats
    | Some cols => cols
    end in
  let opened :=                       (* mode 'w' truncates, 'a' keeps *)
    if csv_initialized self then default [] (output self) else [] in
  let headed := if file_exists then opened else opened ++ [cols] in
  let written :=
    match _dict_to_list cols stats with
    | Some cells => (headed ++ [cells], true)
    | None => (headed, false)
    end in
  ({| columns := Some cols; csv_initialized := true;
      player_stats := player_stats self;
      output := Some written.1; log := log self |}, written.2).

(** A run of the sink: one call for each record, in turn (the caller
    catches the [ValueError] of a call and goes on). *)
Definition save_all (self : scraper) (records : list record) : scraper :=
  foldl (fun self stats => (save_player_to_csv self stats).1) self records.

(** The two tests of the page content in the retry loops. *)
Definition challenge_detected (page_content : str) : bool :=
  contains (lit "Checking your browser") page_content
  || contains (lit "Just a moment") page_content
  || contains (lit "cf-browser-verification") page_content
  || contains (lit "challenge-platform") page_content.
Definition challenge_still_present (page_content : str) : bool :=
  contains (lit "Checking your browser") page_content
  || contains (lit "Just a moment") page_content.

(** What one pass through the [try] block meets: an exception before the
    data is there, or the page content at the first test, the content
    after the 10 s wait, and what [PlayerScraper.scrape_player_data]
    returns. *)
Inductive visit :=
| NavError
| Loaded (page_content after_wait : str) (stats : record).

Definition max_retries : nat := 5.

Definition add_event (e : event) (self : scraper) : scraper :=
  {| columns := columns self; csv_initialized := csv_initialized self;
     player_stats := player_stats self; output := output self;
     log := log self ++ [e] |}.

Definition append_stats (stats : record) (self : scraper) : scraper :=
  {| columns := columns self; csv_initialized := csv_initialized self;
     player_stats := player_stats self ++ [stats]; output := output self;
     log := log self |}.

Definition is_goto (e : event) : bool :=
  match e with Goto _ => true | _ => false end.
(** The navigations made so far. *)
Definition navigations (self : scraper) : nat :=
  length (List.filter is_goto (log self)).

(** A pass that ends in [retries += 1] without touching the sink: an
    exception, a challenge that stays, or no [name] in the data. *)
Definition fails (v : visit) : bool :=
  match v with
  | NavError => true
  | Loaded page_content after_wait stats =>
      challenge_detected page_content && challenge_still_present after_wait
      || negb (truthy (default [] (stats !! lit "name")))
  end.

(** The sleeps and the navigation that open a pass through the [try]
    block. *)
Definition before_visit (retries idx : nat) (url : str) (self : scraper)
    : scraper :=
  let self :=
    if (0 <? retries)%nat then add_event (Backoff (backoff_delay retries)) self
    else self in
  let self := if (1 <? idx)%nat then add_event RequestPause self else self in
  add_event (Goto url) self.

Section Run.
(** [site idx retries]: what the attempt made for the [idx]-th URL after
    [retries] failures meets. *)
Variable site : nat -> nat -> visit.

(** [while retries < max_retries and not success]: [remaining] is
    [max_retries - retries]. The result tells [success]. *)
Fixpoint attempts (remaining retries idx : nat) (url : str) (self : scraper)
    : scraper * bool :=
  match remaining with
  | O => (self, false)
  | S remaining' =>
      let self := before_visit retries idx url self in
      match site idx retries with
      | NavError => attempts remaining' (S retries) idx url self
      | Loaded page_content after_wait stats =>
          if challenge_detected page_content && challenge_still_present after_wait
          then attempts remaining' (S retries) idx url self
          else if truthy (default [] (stats !! lit "name"))
          then
            let saved := save_player_to_csv (append_stats stats self) stats in
            if saved.2 then (saved.1, true)
            else attempts remaining' (S retries) idx url saved.1
          else attempts remaining' (S retries) idx url self
      end
  end.

(** The body of [for idx, url in enumerate(urls_to_scrape, 1)]. *)
Definition scrape_one (idx : nat) (url : str) (self : scraper) : scraper :=
  let r := attempts max_retries 0 idx url self in
  if r.2 then r.1 else add_event (Skipped url) r.1.

Fixpoint scrape_from (idx : nat) (urls : list str) (self : scraper) : scraper :=
  match urls with
  | [] => self
  | url :: rest => scrape_from (S idx) rest (scrape_one idx url self)
  end.

(** [scrape_player_stats], for a non-negative [max_players]. *)
Definition scrape_player_stats (player_urls : list str) (max_players : option nat)
    (self : scraper) : scraper :=
  let urls_to_scrape :=
    match max_players with
    | Some (S n) => take (S n) player_urls
    | _ => player_urls
    end in
  scrape_from 1 urls_to_scrape self.
End Run.

(** The memory and the file of the sink agree: nothing has been scraped
    and the file is what the run found, or the schema is the column order
    of the first record scraped and the file holds the header and the
    rows of the records the writer has accepted. *)
Definition sink_consistent (old : option (list row)) (self : scraper) : Prop :=
  match player_stats self with
  | [] => columns self = None /\ csv_initialized self = false /\ output self = old
  | first :: _ =>
      let cols := _get_column_order first in
      columns self = Some cols /\ csv_initialized self = true
      /\ output self = Some (cols :: omap (_dict_to_list cols) (player_stats self))
  end.

(** [stats.get('name')] is truthy. *)
Definition named (stats : record) : bool :=
  truthy (default [] (stats !! lit "name")).

(** [load_player_urls]. [file] holds the rows of the URL file as
    [csv.writer] put them there (a blank line is the empty row). The file
    is opened without [newline=''], so the text of every cell comes
    through [universal_newlines] before [csv.reader] sees it. [None]
    stands for the [StopIteration] that [next(reader)] raises on a file
    without a first line. *)
Definition load_player_urls (file : list row) : option (list str) :=
  match file with
  | [] => None
  | _ :: rest =>
      Some (omap (fun row => head (List.map universal_newlines row)) rest)
  end.

End SoFIFA.

(* --------------------------------------------------------------------- *)
(** ** scrape_player_urls.py *)
(* --------------------------------------------------------------------- *)

Module PlayerURLs.

(** The loop of [save_urls_to_csv] that removes duplicates. *)
Fixpoint unique_loop (urls : list str) (seen : gset str) (unique_urls : list str)
    : list str :=
  match urls with
  | [] => unique_urls
  | url :: rest =>
      if decide (url ∈ seen) then unique_loop rest seen unique_urls
      else unique_loop rest ({[url]} ∪ seen) (unique_urls ++ [url])
  end.

Definition unique (urls : list str) : list str := unique_loop urls ∅ [].

(** The content [save_urls_to_csv] gives the file for a list of URLs. *)
Definition url_file (unique_urls : list str) : list row :=
  [lit "player_url"] :: List.map (fun url => [url]) unique_urls.

(** A file of URLs without a repeated record (or no file). *)
Definition deduplicated (file : option (list row)) : Prop :=
  match file with
  | None => True
  | Some content => exists urls, content = url_file urls /\ NoDup urls
  end.

(** The sleeps and navigations of the listing loop, as in [SoFIFA.event];
    [Goto offset] asks for the listing at [offset]. *)
Inductive event :=
| Backoff (delay : Q -> Q)
| RequestPause
| Goto (offset : nat).

(** The scraper object, the loop variable [page_num], the files on disk by
    name, and the navigations made so far. *)
Record scraper := {
  all_player_urls : list str;
  offset : nat;
  page_num : nat;
  files : gmap str (list row);
  log : list event
}.

Definition page_size : nat := 60.
Definition max_retries : nat := 3.

Definition fresh (files : gmap str (list row)) : scraper :=
  {| all_player_urls := []; offset := 0; page_num := 1; files := files; log := [] |}.

Definition save_urls_to_csv (self : scraper) (filename : str) : scraper :=
  let unique_urls := unique (all_player_urls self) in
  let content := url_file unique_urls in
  {| all_player_urls := all_player_urls self; offset := offset self;
     page_num := page_num self;
     files := <[filename := content]> (files self); log := log self |}.

Definition default_filename : str := lit "player_urls.csv".

Inductive visit :=
| NavError
| Loaded (page_content after_wait : str) (urls : list str) (hasNext : bool).

Definition add_event (e : event) (self : scraper) : scraper :=
  {| all_player_urls := all_player_urls self; offset := offset self;
     page_num := page_num self; files := files self; log := log self ++ [e] |}.

Definition is_goto (e : event) : bool :=
  match e with Goto _ => true | _ => false end.
Definition navigations (self : scraper) : nat :=
  length (List.filter is_goto (log self)).

(** The sleeps and the navigation that open a pass through the [try]
    block. *)
Definition before_visit (retries : nat) (self : scraper) : scraper :=
  let self :=
    if (0 <? retries)%nat
    then add_event (Backoff (SoFIFA.backoff_delay retries)) self
    else self in
  let self := if (1 <? page_num self)%nat then add_event RequestPause self else self in
  add_event (Goto (offset self)) self.

(** The end of a pass that has the page: the URLs are added, the file is
    saved, the offset moves when there is a next page. *)
Definition collect (player_urls : list str) (hasNext : bool) (self : scraper)
    : scraper :=
  let self :=
    {| all_player_urls := all_player_urls self ++ player_urls;
       offset := offset self; page_num := page_num self;
       files := files self; log := log self |} in
  let self := save_urls_to_csv self default_filename in
  if hasNext
  then {| all_player_urls := all_player_urls self;
          offset := offset self + page_size;
          page_num := page_num self + 1;
          files := files self; log := log self |}
  else self.

Section Run.
(** [site n offset]: what the navigation number [n] of the run (from 0)
    meets when it asks for the listing at [offset]. *)
Variable site : nat -> nat -> visit.

(** [while retries < max_retries and not success], with [remaining] for
    [max_retries - retries]; the result carries [has_next]. *)
Fixpoint attempts (remaining retries : nat) (has_next : bool) (self : scraper)
    : scraper * bool :=
  match remaining with
  | O => (self, has_next)
  | S remaining' =>
      let n := navigations self in
      let self := before_visit retries self in
      match site n (offset self) with
      | NavError =>
          let retries := S retries in
          let has_next := if (max_retries <=? retries)%nat then false else has_next in
          attempts remaining' retries has_next self
      | Loaded page_content after_wait player_urls hasNext =>
          if SoFIFA.challenge_detected page_content
             && SoFIFA.challenge_still_present after_wait
          then attempts remaining' (S retries) has_next self
          else (collect player_urls hasNext self, hasNext)
      end
  end.

(** [while has_next]: the result tells whether the loop has ended
    ([false]: the fuel of the model is spent with the loop still
    running). *)
Fixpoint listing_loop (fuel : nat) (has_next : bool) (self : scraper)
    : bool * scraper :=
  if has_next then
    match fuel with
    | O => (false, self)
    | S fuel' =>
        let r := attempts max_retries 0 has_next self in
        listing_loop fuel' r.2 r.1
    end
  else (true, self).

Definition scrape_all_player_urls (fuel : nat) (self : scraper)
    : bool * scraper :=
  listing_loop fuel true self.

(** [main]: a new scraper, the listing loop, the final save. *)
Definition main (fuel : nat) (files : gmap str (list row)) : bool * scraper :=
  let r := scrape_all_player_urls fuel (fresh files) in
  if r.1 then (true, save_urls_to_csv r.2 default_filename) else r.
End Run.

(** The offset follows the page number, and every navigation asked for a
    page the loop had reached. *)
Definition on_page (self : scraper) : Prop :=
  1 <= page_num self
  /\ offset self = page_size * (page_num self - 1)
  /\ Forall (fun e => forall o, e = Goto o ->
               exists k, o = page_size * k /\ k < page_num self) (log self).

(** A pass of the listing loop that ends in [retries += 1]: an exception
    ([raised]) or a challenge that stays. *)
Definition raised (v : visit) : bool :=
  match v with NavError => true | Loaded _ _ _ _ => false end.
Definition fails (v : visit) : bool :=
  match v with
  | NavError => true
  | Loaded page_content after_wait _ _ =>
      SoFIFA.challenge_detected page_content
      && SoFIFA.challenge_still_present after_wait
  end.

(** The URL of the listing at an offset. *)
Definition page_url (base_url : str) (offset : nat) : str :=
  if (0 <? offset)%nat
  then base_url ++ lit "&offset=" ++ str_of_nat offset
  else base_url.

End PlayerURLs.

(* --------------------------------------------------------------------- *)
(** ** Sample inputs *)
(* --------------------------------------------------------------------- *)

Module Samples.
Import WhoScored.

(** [str.lower()] on ASCII text. *)
Definition lower_ascii (s : str) : str := List.map ascii_lower s.

Definition messi : js_row :=
  {| values := [lit "Lionel Messi"; lit "12"]; playerName := lit "Lionel Messi";
     playerUrl := lit "/Players/11119"; teamName := lit "Inter Miami";
     teamUrl := lit "/Teams/1"; playerAge := lit "37";
     playerPositions := lit "FW" |}.

(** A listing whose [#next] control is always enabled: page [k+1] of 10 is
    shown after [k] clicks, the first three pages have a row, the fourth
    has none. *)
Definition four_pages (k : nat) : view :=
  {| paging_el := Some {| page_match := Some (k + 1, 10); next_enabled := true |};
     table_el := Some ([lit "Player"; lit "Goals"],
                       if (k <? 3)%nat then [messi] else []) |}.

(** A listing stuck on "Page 2 / 5": the click changes nothing. *)
Definition stuck_page (_ : unit) : view :=
  {| paging_el := Some {| page_match := Some (2, 5); next_enabled := true |};
     table_el := Some ([lit "Player"; lit "Goals"], [messi]) |}.

(** A listing whose paging text does not read "Page X / Y". *)
Definition unreadable_paging (_ : unit) : view :=
  {| paging_el := Some {| page_match := None; next_enabled := true |};
     table_el := Some ([lit "Player"; lit "Goals"], [messi]) |}.

Definition start {W} (w : W) : tab_state :=
  {| world := w; rows := []; trace := [] |}.

(** The records of the schema example. *)
Definition rec_ab : record :=
  <[lit "a" := lit "1"]> (<[lit "b" := lit "2"]> ∅).
Definition rec_abc : record :=
  <[lit "a" := lit "1"]> (<[lit "b" := lit "2"]> (<[lit "c" := lit "3"]> ∅)).
Definition rec_a : record := <[lit "a" := lit "1"]> ∅.

(** Two players, the second with a field the first has not. *)
Definition rec_messi : record :=
  <[lit "name" := lit "Lionel Messi"]> (<[lit "zone" := lit "FW"]>
  (<[lit "player_id" := lit "158023"]> ∅)).
Definition rec_pedri : record :=
  <[lit "name" := lit "Pedri"]> (<[lit "player_id" := lit "251854"]> ∅).

(** Two WhoScored rows: the later one brings the key [assists], which
    sorts before the key [goals] of the first. *)
Definition row_goals : record := <[lit "goals" := lit "12"]> ∅.
Definition row_assists : record := <[lit "assists" := lit "7"]> ∅.

(** What an earlier run left in the output file. *)
Definition old_output : list row :=
  [[lit "name"; lit "club"]; [lit "Xavi"; lit "Barcelona"]].

(** A listing of two pages: the first repeats a URL, the second repeats
    one of the first. *)
Definition two_listing_pages (n offset : nat) : PlayerURLs.visit :=
  match offset with
  | O => PlayerURLs.Loaded (lit "<html>players</html>") []
           [lit "/player/1"; lit "/player/2"; lit "/player/1"] true
  | _ => PlayerURLs.Loaded (lit "<html>players</html>") []
           [lit "/player/2"; lit "/player/3"] false
  end.

(** A listing that shows the interstitial at every visit. *)
Definition always_challenged (n offset : nat) : PlayerURLs.visit :=
  PlayerURLs.Loaded (lit "<title>Just a moment...</title>")
    (lit "<title>Just a moment...</title>") [] false.

(** A listing that raises at every navigation. *)
Definition always_raising (n offset : nat) : PlayerURLs.visit :=
  PlayerURLs.NavError.

(** A player page that times out at every attempt, whatever the URL. *)
Definition always_timing_out (idx retries : nat) : SoFIFA.visit :=
  SoFIFA.NavError.

(** A player page that loads at every attempt and gives the record of
    Messi. *)
Definition always_messi (idx retries : nat) : SoFIFA.visit :=
  SoFIFA.Loaded (lit "<html>player</html>") [] rec_messi.

(** A sink that has saved the record of Pedri. *)
Definition after_pedri : SoFIFA.scraper :=
  (SoFIFA.save_player_to_csv
     (SoFIFA.append_stats rec_pedri (SoFIFA.fresh None)) rec_pedri).1.

(** A listing that shows the interstitial at the first two visits and
    raises at the third. *)
Definition challenged_then_raising (n offset : nat) : PlayerURLs.visit :=
  if (n <? 2)%nat then always_challenged n offset else PlayerURLs.NavError.

End Samples.


(* ===================================================================== *)
(** * Part II: properties *)
(* ===================================================================== *)

Module PyStrFacts.

Lemma startswith_spec (needle hay : str) :
  startswith hay needle = true <-> exists post, hay = needle ++ post.
Proof.
  revert hay. induction needle as [|a needle IH]; intros hay; simpl.
  - split; [intros _; by exists hay | done].
  - destruct hay as [|b hay].
    + split; [done | intros [post Hp]; discriminate Hp].
    + rewrite andb_true_iff, N.eqb_eq, IH. split.
      * intros [-> [post ->]]. by exists post.
      * intros [post Hp]. injection Hp as -> ->. eauto.
Qed.

Lemma contains_spec (needle hay : str) :
  contains needle hay = true <-> occurs_in needle hay.
Proof.
  unfold occurs_in. induction hay as [|b hay IH].
  - simpl. rewrite orb_false_r, startswith_spec. split.
    + intros [post Hp]. by exists [], post.
    + intros [pre [post Hp]]. destruct pre; [by exists post|discriminate Hp].
  - cbn [contains]. rewrite orb_true_iff, startswith_spec, IH. split.
    + intros [[post Hp] | [pre [post Hp]]].
      * by exists [], post.
      * exists (b :: pre), post. by rewrite Hp.
    + intros [pre [post Hp]]. destruct pre as [|c pre].
      * left. by exists post.
      * right. injection Hp as -> ->. eauto.
Qed.

Lemma contains_false (needle hay : str) :
  contains needle hay = false <-> ~ occurs_in needle hay.
Proof. rewrite <- contains_spec. by destruct (contains needle hay). Qed.

End PyStrFacts.

Module ChallengeDetector.
Import PyStrFacts WhoScored.

Lemma is_challenge_iff (content : str) :
  _is_cloudflare_challenge content = true
  <-> exists marker, In marker markers /\ occurs_in marker content.
Proof.
  unfold _is_cloudflare_challenge. rewrite existsb_exists.
  split; intros [m [Hin Hm]]; exists m; split; try done; by apply contains_spec.
Qed.

(** C9. A page content is classified by the occurrence of one of the four
    fixed markers: [_is_cloudflare_challenge] answers [true] (a challenge)
    exactly when some marker occurs in the content, so a content in which
    "Just a moment" occurs is a challenge and a content in which no marker
    occurs is clear; the first test of the SoFIFA retry loops is the same
    function. *)
Theorem challenge_classification (content : str) :
  (_is_cloudflare_challenge content = true
     <-> exists marker, In marker markers /\ occurs_in marker content)
  /\ (occurs_in (lit "Just a moment") content
        -> _is_cloudflare_challenge content = true)
  /\ ((forall marker, In marker markers -> ~ occurs_in marker content)
        -> _is_cloudflare_challenge content = false)
  /\ SoFIFA.challenge_detected content = _is_cloudflare_challenge content.
Proof.
  split; [apply is_challenge_iff|]. split; [|split].
  - intros H. apply is_challenge_iff. exists (lit "Just a moment").
    split; [|done]. right. by left.
  - intros H. apply not_true_is_false. rewrite is_challenge_iff.
    intros [m [Hin Hm]]. by apply (H m).
  - unfold SoFIFA.challenge_detected, _is_cloudflare_challenge, markers.
    simpl. by rewrite orb_false_r, !orb_assoc.
Qed.

(** A page that shows the interstitial, and an ordinary page. *)
Lemma challenge_classification_witness :
  _is_cloudflare_challenge (lit "<title>Just a moment...</title>") = true
  /\ _is_cloudflare_challenge (lit "<title>Lionel Messi</title>") = false.
Proof.
  split.
  - destruct (challenge_classification (lit "<title>Just a moment...</title>"))
      as (_ & Hmoment & _).
    apply Hmoment. exists (lit "<title>"), (lit "...</title>"). reflexivity.
  - destruct (challenge_classification (lit "<title>Lionel Messi</title>"))
      as (_ & _ & Hclear & _).
    apply Hclear. intros marker Hin. apply contains_false.
    repeat (destruct Hin as [<- | Hin]; [by vm_compute|]). destruct Hin.
Defined.

End ChallengeDetector.

Module Backoff.
Import SoFIFA.










End Backoff.


Module Pagination.
Import WhoScored Samples.

Section Driver.
Context {W : Type}.
Variables (look : W -> view) (press_next tick pause : W -> W) (polls : nat).
Variable lower : str -> str.
Variables (max_pages : option Z) (url tab : str).

Local Abbreviation scrape := (_scrape_tab look press_next tick pause polls lower).
Local Abbreviation click := (_click_next look press_next tick polls).
Local Abbreviation page_rows_of st :=
  (read_table_data (look (world st))).2.
Local Abbreviation page_no st := (current (read_page_info (look (world st)))).

Lemma reads_app t1 t2 : reads (t1 ++ t2) = reads t1 + reads t2.
Proof. unfold reads. by rewrite List.filter_app, length_app. Qed.
Lemma clicks_app t1 t2 : clicks (t1 ++ t2) = clicks t1 + clicks t2.
Proof. unfold clicks. by rewrite List.filter_app, length_app. Qed.

(** The three [break]s of one turn of the loop, in the order of the
    source, and the turn that goes on. *)
Lemma turn_no_rows fuel st :
  page_rows_of st = [] ->
  scrape (S fuel) max_pages url tab st =
    (Stopped NoRows,
     {| world := world st; rows := rows st;
        trace := trace st ++ [ReadPage (page_no st)] |}).
Proof. intros H. simpl. by rewrite H. Qed.

Lemma turn_max_pages fuel st :
  page_rows_of st <> [] ->
  ceiling_reached max_pages (page_no st) = true ->
  scrape (S fuel) max_pages url tab st =
    (Stopped MaxPages,
     {| world := world st;
        rows := rows st ++ page_rows lower url tab (page_no st)
                             (read_table_data (look (world st)));
        trace := trace st ++ [ReadPage (page_no st)] |}).
Proof.
  intros Hrows Hceil. simpl.
  destruct (read_table_data (look (world st))).2 eqn:E; [done|].
  simpl. by rewrite Hceil.
Qed.

Lemma turn_no_next fuel st :
  page_rows_of st <> [] ->
  ceiling_reached max_pages (page_no st) = false ->
  hasNext (read_page_info (look (world st))) = false ->
  scrape (S fuel) max_pages url tab st =
    (Stopped NoNext,
     {| world := world st;
        rows := rows st ++ page_rows lower url tab (page_no st)
                             (read_table_data (look (world st)));
        trace := trace st ++ [ReadPage (page_no st)] |}).
Proof.
  intros Hrows Hceil Hnext. simpl.
  destruct (read_table_data (look (world st))).2 eqn:E; [done|].
  simpl. by rewrite Hceil, Hnext.
Qed.

Lemma turn_goes_on fuel st :
  page_rows_of st <> [] ->
  ceiling_reached max_pages (page_no st) = false ->
  hasNext (read_page_info (look (world st))) = true ->
  scrape (S fuel) max_pages url tab st =
    let st' :=
      {| world := world st;
         rows := rows st ++ page_rows lower url tab (page_no st)
                              (read_table_data (look (world st)));
         trace := (trace st ++ [ReadPage (page_no st)])
                    ++ [ClickNext (page_no st)] |} in
    match click (world st) (page_no st) with
    | None => (RaisedTimeout, st')
    | Some w' =>
        scrape fuel max_pages url tab
          {| world := pause w'; rows := rows st'; trace := trace st' |}
    end.
Proof.
  intros Hrows Hceil Hnext. simpl.
  destruct (read_table_data (look (world st))).2 eqn:E; [done|].
  simpl. by rewrite Hceil, Hnext.
Qed.

(** The loop stops at the first page without rows, whatever the
    continuation signal says. *)
Lemma stops_at_first_empty_page n : forall fuel st wn,
  (forall k, k < n -> exists wk,
      page_after look press_next tick pause polls k (world st) = Some wk
      /\ (read_table_data (look wk)).2 <> []
      /\ ceiling_reached max_pages (current (read_page_info (look wk))) = false
      /\ hasNext (read_page_info (look wk)) = true) ->
  page_after look press_next tick pause polls n (world st) = Some wn ->
  (read_table_data (look wn)).2 = [] ->
  n < fuel ->
  let r := scrape fuel max_pages url tab st in
  r.1 = Stopped NoRows
  /\ reads (trace r.2) = reads (trace st) + n + 1
  /\ clicks (trace r.2) = clicks (trace st) + n.
Proof.
  induction n as [|n IH]; intros fuel st wn Hpages Hn Hempty Hfuel;
    destruct fuel as [|fuel]; try lia.
  - simpl in Hn. injection Hn as <-. intros r. subst r.
    rewrite turn_no_rows by done. simpl.
    rewrite reads_app, clicks_app. unfold reads, clicks. simpl.
    split; [done | lia].
  - destruct (Hpages 0) as (w0 & Hw0 & Hrows & Hceil & Hnext); [lia|].
    simpl in Hw0. injection Hw0 as <-.
    intros r. subst r. rewrite turn_goes_on by done. cbn zeta.
    simpl in Hn. unfold turn_page in Hn.
    destruct (click (world st) (page_no st)) as [w'|] eqn:Hclick; [|done].
    set (st1 := {| world := pause w' |}).
    destruct (IH fuel st1 wn) as (Hstop & Hreads & Hclicks); try done; try lia.
    + intros k Hk. destruct (Hpages (S k)) as (wk & Hwk & Hrest); [lia|].
      exists wk. split; [|done]. simpl in Hwk. unfold turn_page in Hwk.
      by rewrite Hclick in Hwk.
    + split; [done|]. rewrite Hreads, Hclicks. subst st1. simpl.
      rewrite !reads_app, !clicks_app. unfold reads, clicks. simpl. lia.
Qed.

Lemma wait_for_function_stalled n : forall w current_page,
  (forall k, k <= n ->
     page_changed (look (ticks tick k w)) current_page = false) ->
  wait_for_function look tick n w current_page = None.
Proof.
  induction n as [|n IH]; intros w c Hstall;
    pose proof (Hstall 0 ltac:(lia)) as H0; simpl in H0; simpl; rewrite H0.
  - done.
  - apply IH. intros k Hk. apply (Hstall (S k)). lia.
Qed.

Lemma wait_for_function_changed n : forall w current_page w',
  wait_for_function look tick n w current_page = Some w' ->
  page_changed (look w') current_page = true.
Proof.
  induction n as [|n IH]; intros w c w'; simpl;
    destruct (page_changed (look w) c) eqn:E; try done.
  - by intros [= <-].
  - by intros [= <-].
  - apply IH.
Qed.

End Driver.

(** C3. In every turn of the loop of [_scrape_tab] the stop conditions are
    tested in the order (1) no rows, (2) the page ceiling, (3) no
    continuation signal: a page without rows stops the loop whatever the
    ceiling and the signal are, a reached ceiling stops it whatever the
    signal is. Hence, when [n] pages with rows and a true signal are
    followed by a page without rows, the loop stops after reading [n + 1]
    pages and [n] advancement requests, and makes no further one (for
    [n = 3]: four pages read, no fifth). *)
Theorem pagination_termination_precedence
    {W : Type} (look : W -> view) (press_next tick pause : W -> W)
    (polls : nat) (lower : str -> str) (max_pages : option Z) (url tab : str)
    (fuel : nat) (st : tab_state) :
  let scrape := _scrape_tab look press_next tick pause polls lower in
  let info := read_page_info (look (world st)) in
  let page_rows_now := (read_table_data (look (world st))).2 in
  (page_rows_now = [] ->
     (scrape (S fuel) max_pages url tab st).1 = Stopped NoRows)
  /\ (page_rows_now <> [] -> ceiling_reached max_pages (current info) = true ->
     (scrape (S fuel) max_pages url tab st).1 = Stopped MaxPages)
  /\ (page_rows_now <> [] -> ceiling_reached max_pages (current info) = false ->
     hasNext info = false ->
     (scrape (S fuel) max_pages url tab st).1 = Stopped NoNext)
  /\ (forall n wn,
       (forall k, k < n -> exists wk,
           page_after look press_next tick pause polls k (world st) = Some wk
           /\ (read_table_data (look wk)).2 <> []
           /\ ceiling_reached max_pages (current (read_page_info (look wk))) = false
           /\ hasNext (read_page_info (look wk)) = true) ->
       page_after look press_next tick pause polls n (world st) = Some wn ->
       (read_table_data (look wn)).2 = [] ->
       n < fuel ->
       let r := scrape fuel max_pages url tab st in
       r.1 = Stopped NoRows
       /\ reads (trace r.2) = reads (trace st) + n + 1
       /\ clicks (trace r.2) = clicks (trace st) + n).
Proof.
  intros scrape info page_rows_now. subst scrape info page_rows_now.
  split; [|split; [|split]].
  - intros H. by rewrite turn_no_rows.
  - intros H1 H2. by rewrite turn_max_pages.
  - intros H1 H2 H3. by rewrite turn_no_next.
  - intros n wn. apply stops_at_first_empty_page.
Qed.

(** Four pages, the continuation signal always true, the fourth page
    empty: four reads, three clicks, stopped for want of rows. *)
Lemma pagination_termination_precedence_witness :
  let r := _scrape_tab four_pages S id id 2 lower_ascii 10 None
             (lit "https://www.whoscored.com/x") (lit "summary") (start 0) in
  r.1 = Stopped NoRows /\ reads (trace r.2) = 4 /\ clicks (trace r.2) = 3.
Proof.
  destruct (pagination_termination_precedence four_pages S id id 2 lower_ascii
              None (lit "https://www.whoscored.com/x") (lit "summary") 10 (start 0))
    as (_ & _ & _ & Hstop).
  apply (Hstop 3 3).
  - intros k Hk. exists k.
    destruct k as [|[|[|k]]]; [by vm_compute..|lia].
  - by vm_compute.
  - by vm_compute.
  - lia.
Defined.

End Pagination.

Module Stall.
Import WhoScored Samples Pagination.

Lemma page_unchanged_iff (v : view) (current_page : nat) :
  page_changed v current_page = false
  <-> exists p total_pages,
        paging_el v = Some p /\ page_match p = Some (current_page, total_pages).
Proof.
  unfold page_changed. destruct (paging_el v) as [p|].
  - destruct (page_match p) as [[x t]|] eqn:E.
    + rewrite negb_false_iff, Nat.eqb_eq. split.
      * intros ->. by exists p, t.
      * intros (p' & t' & [= <-] & E'). by simplify_eq.
    + split; [done | intros (p' & t' & [= <-] & E'); by simplify_eq].
  - split; [done | by intros (p' & t' & ? & _)].
Qed.

Lemma page_changed_cases (v : view) (current_page : nat) :
  page_changed v current_page = true
  <-> paging_el v = None
      \/ (exists p, paging_el v = Some p /\ page_match p = None)
      \/ (exists p x total_pages,
            paging_el v = Some p /\ page_match p = Some (x, total_pages)
            /\ x <> current_page).
Proof.
  unfold page_changed. destruct (paging_el v) as [p|].
  - destruct (page_match p) as [[x t]|] eqn:E.
    + rewrite negb_true_iff, Nat.eqb_neq. split.
      * intros H. right. right. by exists p, x, t.
      * intros [?|[(p' & [= <-] & E')|(p' & x' & t' & [= <-] & E' & H)]];
          try done; by simplify_eq.
    + split; [intros _; right; left; by exists p | done].
  - split; [by left | done].
Qed.

(** C4, as the code has it. After the click [_click_next] polls the paging
    text for the length of its timeout. It returns only in a state where
    the paging element is gone, or its text does not read "Page X / Y", or
    the page number differs from the one the request was made at; when the
    text keeps showing that page number at every poll, it raises the
    timeout error. [_scrape_tab] neither catches nor retries it: the loop
    ends there, after that one request. *)
Theorem stall_detection
    {W : Type} (look : W -> view) (press_next tick pause : W -> W)
    (polls : nat) (lower : str -> str) (max_pages : option Z) (url tab : str)
    (fuel : nat) (st : tab_state) :
  let click := _click_next look press_next tick polls in
  let info := read_page_info (look (world st)) in
  (forall w current_page,
      (forall k, k <= polls -> exists p total_pages,
          paging_el (look (ticks tick k (after_click look press_next w))) = Some p
          /\ page_match p = Some (current_page, total_pages)) ->
      click w current_page = None)
  /\ (forall w current_page w',
      click w current_page = Some w' ->
      paging_el (look w') = None
      \/ (exists p, paging_el (look w') = Some p /\ page_match p = None)
      \/ (exists p x total_pages,
            paging_el (look w') = Some p /\ page_match p = Some (x, total_pages)
            /\ x <> current_page))
  /\ ((read_table_data (look (world st))).2 <> [] ->
      ceiling_reached max_pages (current info) = false ->
      hasNext info = true ->
      click (world st) (current info) = None ->
      let r := _scrape_tab look press_next tick pause polls lower
                 (S fuel) max_pages url tab st in
      r.1 = RaisedTimeout
      /\ trace r.2 = trace st ++ [ReadPage (current info); ClickNext (current info)]).
Proof.
  intros click info. subst click info. split; [|split].
  - intros w c Hstall. unfold _click_next. fold (after_click look press_next w).
    apply wait_for_function_stalled. intros k Hk.
    apply page_unchanged_iff. by apply Hstall.
  - intros w c w' Hclick. apply page_changed_cases.
    unfold _click_next in Hclick. by eapply wait_for_function_changed.
  - intros Hrows Hceil Hnext Hclick r. subst r.
    rewrite turn_goes_on by done. cbn zeta. rewrite Hclick. simpl.
    split; [done|]. by rewrite <- app_assoc.
Qed.

(** "Page 2 / 5" before and after the click: the request raises, and the
    loop ends with one read and one click. *)
Lemma stall_detection_witness :
  _click_next stuck_page id id 3 () 2 = None
  /\ (let r := _scrape_tab stuck_page id id id 3 lower_ascii 5 None
                 (lit "https://www.whoscored.com/x") (lit "summary") (start ()) in
      r.1 = RaisedTimeout /\ trace r.2 = [ReadPage 2; ClickNext 2]).
Proof.
  destruct (stall_detection stuck_page id id id 3 lower_ascii None
              (lit "https://www.whoscored.com/x") (lit "summary") 4 (start ()))
    as (Hraise & _ & Hloop).
  assert (Hnone : _click_next stuck_page id id 3 () 2 = None).
  { apply Hraise. intros k Hk. eexists _, 5. split; reflexivity. }
  split; [exact Hnone|].
  apply Hloop; [by vm_compute | reflexivity | reflexivity | exact Hnone].
Defined.

Lemma unreadable_keeps_running fuel : forall st,
  let r := _scrape_tab unreadable_paging id id id 2 lower_ascii fuel None
             (lit "https://www.whoscored.com/x") (lit "summary") st in
  r.1 = StillRunning /\ clicks (trace r.2) = clicks (trace st) + fuel.
Proof.
  induction fuel as [|fuel IH]; intros st r; subst r.
  - simpl. split; [done | lia].
  - rewrite turn_goes_on; [|by destruct (world st)..]. cbn zeta.
    destruct (world st). cbn [_click_next wait_for_function unreadable_paging
      paging_el page_match next_enabled page_changed id].
    match goal with |- context [_scrape_tab _ _ _ _ _ _ _ _ _ _ ?s] =>
      destruct (IH s) as [Hrun Hclicks] end.
    split; [exact Hrun|]. rewrite Hclicks. simpl.
    rewrite !clicks_app. unfold clicks. simpl. lia.
Qed.

(** The cursor reads page 1 before and after every request (the paging
    text does not parse), no request raises, and the loop never stops. *)
Lemma stall_undetected_when_paging_unreadable :
  current (read_page_info (unreadable_paging ())) = 1
  /\ _click_next unreadable_paging id id 2 () 1 = Some ()
  /\ (forall fuel,
        let r := _scrape_tab unreadable_paging id id id 2 lower_ascii fuel None
                   (lit "https://www.whoscored.com/x") (lit "summary") (start ()) in
        r.1 = StillRunning /\ clicks (trace r.2) = fuel).
Proof.
  split; [reflexivity|]. split; [reflexivity|].
  intros fuel. apply (unreadable_keeps_running fuel (start ())).
Qed.

End Stall.

Module Headers.
Import WhoScored FBref.

Lemma filter_truthy_strip (levels : list str) :
  (forall c, In c levels -> truthy c = true -> truthy (strip c) = true) ->
  List.filter truthy (List.map strip levels)
  = List.map strip (List.filter truthy levels).
Proof.
  induction levels as [|c levels IH]; intros Hclean; [done|].
  simpl. destruct (truthy c) eqn:E.
  - rewrite (Hclean c) by (by left || done). simpl. f_equal.
    apply IH. intros c' Hin. apply Hclean. by right.
  - destruct c; [|done]. simpl. apply IH. intros c' Hin. apply Hclean. by right.
Qed.

Lemma occurrences_snoc (h h0 : str) (l : list str) :
  occurrences h (l ++ [h0])
  = occurrences h l + (if decide (h0 = h) then 1 else 0).
Proof.
  unfold occurrences. rewrite filter_app, length_app. f_equal.
  rewrite filter_cons, filter_nil. by destruct (decide (h0 = h)).
Qed.

(** The invariant of the loop: [seen] counts the headers read so far and
    [result] holds their suffixed forms. *)
Lemma dedupe_loop_spec (headers : list str) :
  forall (done_ : list str) (seen : gmap str nat) (result : list str),
  (forall h, seen !! h = match occurrences h done_ with
                         | O => None | S k => Some (S k) end) ->
  length result = length done_ ->
  (forall i h, done_ !! i = Some h -> result !! i = Some (suffixed done_ i h)) ->
  let out := dedupe_loop headers seen result in
  length out = length (done_ ++ headers)
  /\ forall i h, (done_ ++ headers) !! i = Some h ->
       out !! i = Some (suffixed (done_ ++ headers) i h).
Proof.
  induction headers as [|h0 headers IH]; intros done_ seen result Hseen Hlen Hres.
  - simpl. rewrite app_nil_r. done.
  - cbn [dedupe_loop]. replace (done_ ++ h0 :: headers) with ((done_ ++ [h0]) ++ headers)
      by (by rewrite <- app_assoc).
    assert (Hseen' :
      forall h, <[h0 := S (occurrences h0 done_)]> seen !! h
        = match occurrences h (done_ ++ [h0]) with
          | O => None | S k => Some (S k) end).
    { intros h. rewrite occurrences_snoc. destruct (decide (h0 = h)) as [->|Hne].
      - rewrite lookup_insert_eq. by rewrite Nat.add_1_r.
      - rewrite lookup_insert_ne by done. rewrite Nat.add_0_r. apply Hseen. }
    assert (Hold : forall x i h, (done_ ++ [h0]) !! i = Some h -> i < length done_ ->
      (result ++ [x]) !! i = Some (suffixed (done_ ++ [h0]) i h)).
    { intros x i h Hi Hlt. rewrite lookup_app_l in Hi by done.
      rewrite lookup_app_l by lia. unfold suffixed.
      rewrite take_app_le by lia. by apply Hres. }
    assert (Hnew : forall i h, (done_ ++ [h0]) !! i = Some h -> ~ i < length done_ ->
      i = length done_ /\ h = h0).
    { intros i h Hi Hge. apply lookup_lt_Some in Hi as Hlt.
      rewrite length_app in Hlt. simpl in Hlt. assert (i = length done_) as -> by lia.
      rewrite list_lookup_middle in Hi by done. by injection Hi as <-. }
    pose proof (Hseen h0) as Hh0.
    destruct (seen !! h0) as [n|] eqn:E.
    + destruct (occurrences h0 done_) as [|k] eqn:Eocc; [done|].
      injection Hh0 as ->. replace (S k + 1) with (S (S k)) by lia.
      apply IH.
      * apply Hseen'.
      * rewrite !length_app. simpl. lia.
      * intros i h Hi. destruct (decide (i < length done_)) as [Hlt|Hge];
          [by apply Hold|].
        destruct (Hnew i h Hi Hge) as [-> ->].
        rewrite <- Hlen, list_lookup_middle by done. rewrite Hlen.
        unfold suffixed. by rewrite take_app_length, Eocc.
    + destruct (occurrences h0 done_) as [|k] eqn:Eocc; [|done].
      apply IH.
      * apply Hseen'.
      * rewrite !length_app. simpl. lia.
      * intros i h Hi. destruct (decide (i < length done_)) as [Hlt|Hge];
          [by apply Hold|].
        destruct (Hnew i h Hi Hge) as [-> ->].
        rewrite <- Hlen, list_lookup_middle by done. rewrite Hlen.
        unfold suffixed. by rewrite take_app_length, Eocc.
Qed.

(** C7, at the inputs on which the code departs from it. A flat header
    is stripped of surrounding white space, so it passes through
    unchanged only when it has none: [" Age "] becomes ["Age"], where the
    claim, and the docstring of [_flatten_headers], say that a string
    header is left unchanged. The levels of a multi-level header are
    tested for emptiness before they are stripped, so a level of white
    space only is kept and stripped to the empty text: [("Standard", " ")]
    gives ["Standard "], with a separator and no text after it, which is
    the join of the non-empty texts neither as they stand nor stripped.
    Away from such inputs the code does what the claim says: when no
    level is made of white space only, the result is the join of the
    non-empty stripped texts with single spaces, left to right; and
    [_dedupe_headers] keeps the length and the positions, leaves the
    first occurrence of a header as it is and gives its [k]-th occurrence
    the suffix [_k]. *)
Theorem header_flatten_and_dedupe :
  (flatten_label (Flat (lit " Age ")) = lit "Age"
   /\ forall c : str, flatten_label (Flat c) = c <-> strip c = c)
  /\ (flatten_label (Levels [lit "Standard"; lit " "]) = lit "Standard "
      /\ flatten_spec [lit "Standard"; lit " "] = lit "Standard  "
      /\ flatten_spec (List.map strip [lit "Standard"; lit " "]) = lit "Standard"
      /\ forall a w : str,
           truthy a = true -> truthy w = true -> strip w = [] ->
           flatten_label (Levels [a; w]) = strip a ++ lit " ")
  /\ (forall levels : list str,
      (forall c, In c levels -> truthy c = true -> truthy (strip c) = true) ->
      flatten_label (Levels levels) = flatten_spec (List.map strip levels))
  /\ _flatten_headers [Levels [lit "Standard"; lit "Gls"]; Flat (lit "Age")]
     = [lit "Standard Gls"; lit "Age"]
  /\ (forall headers : list str,
      length (_dedupe_headers headers) = length headers
      /\ forall i h, headers !! i = Some h ->
           _dedupe_headers headers !! i = Some (suffixed headers i h))
  /\ _dedupe_headers [lit "Gls"; lit "Gls"; lit "Age"; lit "Gls"]
     = [lit "Gls"; lit "Gls_2"; lit "Age"; lit "Gls_3"].
Proof.
  split; [split; [by vm_compute | done]|].
  split; [split; [by vm_compute|]; split; [by vm_compute|]; split; [by vm_compute|]|].
  { intros a w Ha Hw Hstrip. unfold flatten_label. cbn [List.filter].
    rewrite Ha, Hw. cbn [List.map]. rewrite Hstrip.
    reflexivity. }
  split; [|split; [|split]].
  - intros levels Hclean. unfold flatten_label, flatten_spec.
    by rewrite filter_truthy_strip.
  - by vm_compute.
  - intros headers. apply (dedupe_loop_spec headers [] ∅ []); try done.
  - by vm_compute.
Qed.

End Headers.

Module Dedup.
Import PlayerURLs Samples.

Lemma unique_loop_spec (urls : list str) :
  forall (seen : gset str) (acc : list str),
  (forall x, x ∈ seen <-> x ∈ acc) -> NoDup acc ->
  let out := unique_loop urls seen acc in
  NoDup out /\ (forall x, x ∈ out <-> x ∈ acc \/ x ∈ urls) /\ acc `prefix_of` out.
Proof.
  induction urls as [|url urls IH]; intros seen acc Hseen Hnd; simpl.
  - split; [done|]. split; [|done]. intros x. rewrite elem_of_nil. tauto.
  - destruct (decide (url ∈ seen)) as [Hin|Hout].
    + destruct (IH seen acc Hseen Hnd) as (H1 & H2 & H3).
      split; [done|]. split; [|done]. intros x. rewrite H2, elem_of_cons.
      split; [tauto|]. intros [?|[->|?]]; try tauto. left. by apply Hseen.
    + destruct (IH ({[url]} ∪ seen) (acc ++ [url])) as (H1 & H2 & H3).
      * intros x. rewrite elem_of_union, elem_of_singleton, elem_of_app,
          list_elem_of_singleton, Hseen. tauto.
      * apply NoDup_app. split; [done|]. split; [|apply NoDup_singleton].
        intros x Hx. rewrite list_elem_of_singleton. intros ->.
        apply Hout. by apply Hseen.
      * split; [done|]. split.
        -- intros x. rewrite H2, elem_of_app, list_elem_of_singleton, elem_of_cons.
           tauto.
        -- etrans; [|exact H3]. by apply prefix_app_r.
Qed.

Lemma unique_loop_app (p s : list str) :
  forall (seen : gset str) (acc : list str),
  unique_loop (p ++ s) seen acc
  = unique_loop s (seen ∪ list_to_set p) (unique_loop p seen acc).
Proof.
  induction p as [|url p IH]; intros seen acc; simpl.
  - f_equal. by rewrite (right_id_L ∅ (∪)).
  - destruct (decide (url ∈ seen)) as [Hin|Hout]; rewrite IH; f_equal;
      apply set_eq; intros x; rewrite !elem_of_union, elem_of_singleton.
    + split; [tauto|]. intros [?|[->|?]]; tauto.
    + tauto.
Qed.

Lemma unique_NoDup (urls : list str) : NoDup (unique urls).
Proof.
  apply (unique_loop_spec urls ∅ []); [|constructor].
  intros x. by rewrite elem_of_empty, elem_of_nil.
Qed.

Lemma unique_elem_of (urls : list str) (x : str) : x ∈ unique urls <-> x ∈ urls.
Proof.
  destruct (unique_loop_spec urls ∅ []) as (_ & H & _);
    [intros y; by rewrite elem_of_empty, elem_of_nil | constructor |].
  unfold unique. rewrite H, elem_of_nil. tauto.
Qed.

(** First occurrences, in their order: what has been kept of a part of
    the list read so far stays where it is, whatever follows. *)
Lemma unique_prefix (p s : list str) : unique p `prefix_of` unique (p ++ s).
Proof.
  unfold unique. rewrite unique_loop_app.
  apply unique_loop_spec; [|apply unique_NoDup].
  intros x. rewrite elem_of_union, elem_of_list_to_set.
  fold (unique p). rewrite unique_elem_of, elem_of_empty. tauto.
Qed.

Section Runs.
Variable site : nat -> nat -> visit.

Lemma save_deduplicated (self : scraper) :
  files (save_urls_to_csv self default_filename) !! default_filename
  = Some (url_file (unique (all_player_urls self))).
Proof. simpl. apply lookup_insert_eq. Qed.

Lemma before_visit_files (retries : nat) (self : scraper) :
  files (before_visit retries self) = files self.
Proof.
  unfold before_visit. by destruct (0 <? retries)%nat, (1 <? page_num _)%nat.
Qed.

Lemma collect_file (player_urls : list str) (hasNext : bool) (self : scraper) :
  files (collect player_urls hasNext self) !! default_filename
  = Some (url_file (unique (all_player_urls self ++ player_urls))).
Proof. unfold collect. destruct hasNext; simpl; apply lookup_insert_eq. Qed.

Lemma attempts_deduplicated (remaining : nat) :
  forall retries has_next self,
  deduplicated (files self !! default_filename) ->
  deduplicated (files (attempts site remaining retries has_next self).1
                  !! default_filename).
Proof.
  induction remaining as [|remaining IH]; intros retries has_next self Hd; [done|].
  cbn [attempts]. cbv zeta.
  destruct (site _ _) as [|c1 c2 urls hn].
  - apply IH. by rewrite before_visit_files.
  - destruct (_ && _).
    + apply IH. by rewrite before_visit_files.
    + cbn [fst]. rewrite collect_file.
      eexists; (split; [done | apply unique_NoDup]).
Qed.

Lemma listing_loop_deduplicated (fuel : nat) :
  forall has_next self,
  deduplicated (files self !! default_filename) ->
  deduplicated (files (listing_loop site fuel has_next self).2 !! default_filename).
Proof.
  induction fuel as [|fuel IH]; intros has_next self Hd;
    destruct has_next; cbn [listing_loop snd]; try done.
  cbv zeta. apply IH. by apply attempts_deduplicated.
Qed.

Lemma main_deduplicated (fuel : nat) (files0 : gmap str (list row)) :
  deduplicated (files0 !! default_filename) ->
  deduplicated (files (main site fuel files0).2 !! default_filename).
Proof.
  intros Hd. unfold main, scrape_all_player_urls.
  pose proof (listing_loop_deduplicated fuel true (fresh files0) Hd) as H.
  destruct (listing_loop site fuel true (fresh files0)) as [[] self]; [|done].
  cbn [fst snd]. rewrite save_deduplicated.
  eexists; (split; [done | apply unique_NoDup]).
Qed.

Lemma main_finished (fuel : nat) (files0 : gmap str (list row)) :
  (main site fuel files0).1 = true ->
  files (main site fuel files0).2 !! default_filename
  = Some (url_file (unique (all_player_urls (main site fuel files0).2))).
Proof.
  unfold main.
  destruct (scrape_all_player_urls site fuel (fresh files0)) as [[] self];
    [|done].
  intros _. cbn [fst snd]. by rewrite save_deduplicated.
Qed.
End Runs.

(** C6. Two runs of the URL scraper, one after the other on the same
    files: when the second run completes, [player_urls.csv] holds the
    header and one record for each URL the run collected, without a
    repeated URL, in the order of the first occurrences; and at every
    moment of either run, complete or not, a file without repeated
    records stays one. *)
Theorem idempotent_persistence
    (site1 site2 : nat -> nat -> visit) (fuel1 fuel2 : nat)
    (files0 : gmap str (list row)) :
  let run1 := main site1 fuel1 files0 in
  let run2 := main site2 fuel2 (files run1.2) in
  let collected := all_player_urls run2.2 in
  (deduplicated (files0 !! default_filename) ->
     deduplicated (files run1.2 !! default_filename)
     /\ deduplicated (files run2.2 !! default_filename))
  /\ (run2.1 = true ->
      files run2.2 !! default_filename = Some (url_file (unique collected))
      /\ NoDup (unique collected)
      /\ (forall url, url ∈ unique collected <-> url ∈ collected)
      /\ (forall p s, collected = p ++ s -> unique p `prefix_of` unique collected)).
Proof.
  intros run1 run2 collected. split.
  - intros Hd. split; [by apply main_deduplicated|].
    by apply main_deduplicated, main_deduplicated.
  - intros Hfin. split; [by apply main_finished|]. split; [apply unique_NoDup|].
    split; [apply unique_elem_of|]. intros p s ->. apply unique_prefix.
Qed.

(** Two runs over the same two pages: three URLs, each once, in the order
    they were met. *)
Lemma idempotent_persistence_witness :
  let run1 := main two_listing_pages 5 ∅ in
  let run2 := main two_listing_pages 5 (files run1.2) in
  files run2.2 !! default_filename
  = Some (url_file [lit "/player/1"; lit "/player/2"; lit "/player/3"])
  /\ NoDup (unique (all_player_urls run2.2)).
Proof.
  destruct (idempotent_persistence two_listing_pages two_listing_pages 5 5 ∅)
    as [_ Hdone].
  destruct Hdone as (Hfile & Hnd & _); [reflexivity|].
  split; [|exact Hnd]. rewrite Hfile. reflexivity.
Defined.

End Dedup.

Module Sorting.

#[export] Instance str_le_total : Total str_le.
Proof.
  intros x y. unfold str_le.
  destruct (trichotomyT lexico x y) as [[Hlt | ->] | Hgt].
  - left. intros Hyx. by apply (irreflexivity lexico x); etrans.
  - left. apply irreflexivity, _.
  - right. intros Hxy. by apply (irreflexivity lexico x); etrans.
Qed.

Lemma str_le_neq_lt (x y : str) : str_le x y -> x <> y -> lexico x y.
Proof.
  unfold str_le. intros Hle Hne.
  by destruct (trichotomyT lexico x y) as [[Hlt | ->] | Hgt].
Qed.

Lemma Sorted_strict (l : list str) :
  Sorted str_le l -> NoDup l -> Sorted lexico l.
Proof.
  induction 1 as [|x l Hsorted IH Hhd]; intros Hnd; [constructor|].
  apply NoDup_cons in Hnd as [Hx Hnd]. constructor; [by apply IH|].
  destruct Hhd as [|y l Hxy]; constructor.
  apply str_le_neq_lt; [done|]. intros ->. apply Hx. by left.
Qed.

(** [sorted] of distinct strings: the same strings, in strictly increasing
    order. *)
Lemma sorted_spec (l : list str) :
  NoDup l ->
  Sorted lexico (sorted l) /\ (forall x, x ∈ sorted l <-> x ∈ l).
Proof.
  intros Hnd. unfold sorted.
  pose proof (merge_sort_Permutation str_le l) as Hperm. split.
  - apply Sorted_strict; [apply Sorted_merge_sort, _|]. by rewrite Hperm.
  - intros x. by rewrite Hperm.
Qed.

End Sorting.

Module Schema.
Import Sorting SoFIFA Samples.

Lemma column_order_spec (stats : record) :
  exists other_cols,
    _get_column_order stats
    = filter (fun col => col ∈ dom stats) priority_cols ++ other_cols
    /\ Sorted lexico other_cols
    /\ (forall key, key ∈ other_cols <-> key ∈ dom stats /\ key ∉ priority_cols).
Proof.
  eexists. split; [reflexivity|].
  destruct (sorted_spec
    (filter (fun col => col ∉ priority_cols) (elements (dom stats))))
    as [Hsorted Hin].
  { apply NoDup_filter, NoDup_elements. }
  split; [exact Hsorted|]. intros key.
  rewrite Hin, list_elem_of_filter, elem_of_elements. tauto.
Qed.

Lemma column_order_covers (stats : record) (key : str) :
  key ∈ dom stats -> key ∈ _get_column_order stats.
Proof.
  intros Hkey. destruct (column_order_spec stats) as (others & -> & _ & Hothers).
  rewrite elem_of_app, list_elem_of_filter, Hothers.
  destruct (decide (key ∈ priority_cols)); tauto.
Qed.

Lemma dict_to_list_accepts (fieldnames : list str) (rowdict : record) :
  (forall key, key ∈ dom rowdict -> key ∈ fieldnames) ->
  _dict_to_list fieldnames rowdict = Some (row_of fieldnames rowdict).
Proof.
  intros Hsub. unfold _dict_to_list. rewrite decide_True; [done|].
  intros key Hkey. apply elem_of_list_to_set. by apply Hsub.
Qed.

Lemma dict_to_list_rejects (fieldnames : list str) (rowdict : record) (key : str) :
  key ∈ dom rowdict -> key ∉ fieldnames ->
  _dict_to_list fieldnames rowdict = None.
Proof.
  intros Hkey Hout. unfold _dict_to_list. rewrite decide_False; [done|].
  intros Hsub. apply Hout. apply (Hsub key) in Hkey.
  by apply elem_of_list_to_set in Hkey.
Qed.

Lemma row_of_lookup (fieldnames : list str) (rowdict : record) (i : nat) (key : str) :
  fieldnames !! i = Some key ->
  row_of fieldnames rowdict !! i = Some (default [] (rowdict !! key)).
Proof. intros Hi. unfold row_of. by rewrite list_lookup_fmap, Hi. Qed.

Lemma writerows_all (cols : list str) (rows : list record) :
  forall file,
  (forall r key, r ∈ rows -> key ∈ dom r -> key ∈ cols) ->
  WhoScored.writerows cols rows file
  = (file ++ List.map (row_of cols) rows, true).
Proof.
  induction rows as [|r rows IH]; intros file Hsub; simpl.
  - by rewrite app_nil_r.
  - rewrite dict_to_list_accepts.
    + rewrite IH, <- app_assoc; [done|]. intros r' key Hr'. apply Hsub. by right.
    + intros key. apply Hsub. by left.
Qed.

Lemma all_keys_spec (rows : list record) (key : str) :
  key ∈ WhoScored.all_keys rows
  <-> key ∈ WhoScored.base_columns \/ exists r, r ∈ rows /\ key ∈ dom r.
Proof.
  unfold WhoScored.all_keys.
  assert (Hfold : forall (acc : gset str),
    key ∈ foldl (fun keys row => keys ∪ dom row) acc rows
    <-> key ∈ acc \/ exists r : record, r ∈ rows /\ key ∈ dom r).
  { induction rows as [|r rows IH]; intros acc; simpl.
    - split; [tauto|]. intros [?|(r & Hr & _)]; [done|]. by apply elem_of_nil in Hr.
    - rewrite IH, elem_of_union. split.
      + intros [[?|?]|(r' & Hr' & ?)]; [tauto| |].
        * right. exists r. split; [by left | done].
        * right. exists r'. split; [by right | done].
      + intros [?|(r' & Hr' & ?)]; [tauto|].
        apply elem_of_cons in Hr' as [->|Hr']; [tauto|]. right. by exists r'. }
  rewrite Hfold, elem_of_list_to_set. done.
Qed.

Lemma csv_columns_spec (rows : list record) :
  exists extra_columns,
    WhoScored.csv_columns rows = WhoScored.base_columns ++ extra_columns
    /\ Sorted lexico extra_columns
    /\ (forall key, key ∈ extra_columns
          <-> (key ∉ WhoScored.base_columns) /\ exists r, r ∈ rows /\ key ∈ dom r).
Proof.
  eexists. split; [reflexivity|].
  destruct (sorted_spec
    (filter (fun key => key ∉ WhoScored.base_columns)
       (elements (WhoScored.all_keys rows)))) as [Hsorted Hin].
  { apply NoDup_filter, NoDup_elements. }
  split; [exact Hsorted|]. intros key.
  rewrite Hin, list_elem_of_filter, elem_of_elements, all_keys_spec. tauto.
Qed.

(** C1, as the code has it. The SoFIFA sink fixes its schema at the first
    record: the priority fields the record has, in priority order, then
    its other keys in lexicographic order; the first record is always
    written. The schema never changes afterwards: no call adds a column.
    A record is written with the empty text in every column it lacks; a
    later record with a key outside the schema is refused with
    [ValueError], and nothing is written for it. The WhoScored writer
    computes its schema once, from all the rows together: the nine base
    columns, then every other key in lexicographic order, and writes every
    row under it. *)
Theorem schema_stability (self : scraper) (stats : record) :
  (columns self = None ->
     columns (save_player_to_csv self stats).1 = Some (_get_column_order stats)
     /\ (save_player_to_csv self stats).2 = true)
  /\ (exists other_cols,
        _get_column_order stats
        = filter (fun col => col ∈ dom stats) priority_cols ++ other_cols
        /\ Sorted lexico other_cols
        /\ (forall key, key ∈ other_cols
              <-> key ∈ dom stats /\ key ∉ priority_cols))
  /\ (forall cols, columns self = Some cols ->
        columns (save_player_to_csv self stats).1 = Some cols)
  /\ (forall cols cells, _dict_to_list cols stats = Some cells ->
        length cells = length cols
        /\ forall i key, cols !! i = Some key ->
             cells !! i = Some (default [] (stats !! key)))
  /\ (forall cols content key,
        columns self = Some cols -> csv_initialized self = true ->
        output self = Some content ->
        key ∈ dom stats -> key ∉ cols ->
        (save_player_to_csv self stats).2 = false
        /\ output (save_player_to_csv self stats).1 = Some content)
  /\ (forall (first : record) (later : list record) file,
        exists extra_columns,
          WhoScored.csv_columns (first :: later)
            = WhoScored.base_columns ++ extra_columns
          /\ Sorted lexico extra_columns
          /\ (forall key, key ∈ extra_columns
                <-> (key ∉ WhoScored.base_columns)
                    /\ exists r, r ∈ (first :: later) /\ key ∈ dom r)
          /\ WhoScored._write_csv (first :: later) file
             = (Some (WhoScored.csv_columns (first :: later)
                      :: List.map (row_of (WhoScored.csv_columns (first :: later)))
                           (first :: later)), true)).
Proof.
  split; [|split; [|split; [|split; [|split]]]].
  - intros Hnone. unfold save_player_to_csv. rewrite Hnone.
    rewrite dict_to_list_accepts by apply column_order_covers. done.
  - apply column_order_spec.
  - intros cols Hcols. unfold save_player_to_csv. by rewrite Hcols.
  - intros cols cells Hcells. unfold _dict_to_list in Hcells.
    destruct (decide _); [|done]. injection Hcells as <-.
    split; [apply length_map|]. intros i key. apply row_of_lookup.
  - intros cols content key Hcols Hinit Hout Hkey Hnew.
    unfold save_player_to_csv. rewrite Hcols, Hinit, Hout.
    rewrite (dict_to_list_rejects cols stats key) by done. simpl.
    split; [done|]. by rewrite app_nil_r || done.
  - intros first later file.
    destruct (csv_columns_spec (first :: later)) as (extra & Heq & Hsorted & Hin).
    exists extra. split; [done|]. split; [done|]. split; [done|].
    unfold WhoScored._write_csv. rewrite writerows_all; [done|].
    intros r key Hr Hkey. rewrite Heq, elem_of_app, Hin.
    destruct (decide (key ∈ WhoScored.base_columns)); [tauto|].
    right. split; [done|]. by exists r.
Qed.

(** A first record with a priority field and two others; then a record
    that lacks one of the columns. *)
Lemma schema_stability_witness :
  columns (save_player_to_csv (fresh None) rec_messi).1
    = Some [lit "player_id"; lit "name"; lit "zone"]
  /\ output (save_all (fresh None) [rec_messi; rec_pedri])
     = Some [ [lit "player_id"; lit "name"; lit "zone"];
              [lit "158023"; lit "Lionel Messi"; lit "FW"];
              [lit "251854"; lit "Pedri"; []] ].
Proof.
  destruct (schema_stability (fresh None) rec_messi) as (Hfirst & _).
  destruct Hfirst as [Hcols _]; [reflexivity|].
  split; [rewrite Hcols; reflexivity | reflexivity].
Defined.

(** The example of the specification: after [{a, b}] has fixed the schema,
    the record [{a, b, c}] is refused, the schema is still [a, b] and the
    file has no row for it; and for the WhoScored writer a key met later
    is not appended but sorted in: [assists] comes before [goals]. *)
Lemma schema_does_not_grow :
  let sink1 := (save_player_to_csv (fresh None) rec_ab).1 in
  let call2 := save_player_to_csv sink1 rec_abc in
  columns sink1 = Some [lit "a"; lit "b"]
  /\ call2.2 = false
  /\ columns call2.1 = Some [lit "a"; lit "b"]
  /\ output call2.1 = Some [[lit "a"; lit "b"]; [lit "1"; lit "2"]]
  /\ WhoScored.csv_columns [row_goals]
     = WhoScored.base_columns ++ [lit "goals"]
  /\ WhoScored.csv_columns [row_goals; row_assists]
     = WhoScored.base_columns ++ [lit "assists"; lit "goals"].
Proof. cbv zeta. repeat split; reflexivity. Qed.

End Schema.

Module Persistence.
Import SoFIFA Samples Schema.

Lemma first_call (old : option (list row)) (stats : record) :
  save_player_to_csv (fresh old) stats
  = ({| columns := Some (_get_column_order stats); csv_initialized := true;
        player_stats := []; 
        output := Some [_get_column_order stats;
                        row_of (_get_column_order stats) stats];
        log := [] |}, true).
Proof.
  unfold save_player_to_csv, fresh. cbn [columns csv_initialized output
    player_stats log]. rewrite andb_false_r.
  by rewrite dict_to_list_accepts by apply column_order_covers.
Qed.

Lemma later_call (self : scraper) (stats : record) (cols : list str)
    (content : list row) :
  csv_initialized self = true -> columns self = Some cols ->
  output self = Some content ->
  csv_initialized (save_player_to_csv self stats).1 = true
  /\ columns (save_player_to_csv self stats).1 = Some cols
  /\ output (save_player_to_csv self stats).1
     = Some (content ++ option_list (_dict_to_list cols stats)).
Proof.
  intros Hinit Hcols Hout. unfold save_player_to_csv.
  rewrite Hinit, Hcols, Hout. cbn [fst columns csv_initialized output].
  split; [done|]. split; [done|].
  rewrite bool_decide_true by done. cbn [andb default].
  destruct (_dict_to_list cols stats); simpl; [done|]. by rewrite app_nil_r.
Qed.

Lemma later_calls (records : list record) :
  forall (self : scraper) (cols : list str) (content : list row),
  csv_initialized self = true -> columns self = Some cols ->
  output self = Some content ->
  columns (save_all self records) = Some cols
  /\ output (save_all self records)
     = Some (content ++ omap (_dict_to_list cols) records).
Proof.
  induction records as [|stats records IH]; intros self cols content Hinit Hcols Hout.
  - simpl. by rewrite app_nil_r.
  - destruct (later_call self stats cols content) as (Hinit' & Hcols' & Hout');
      try done.
    unfold save_all. cbn [foldl]. fold (save_all (save_player_to_csv self stats).1 records).
    destruct (IH _ cols _ Hinit' Hcols' Hout') as [Hc Ho].
    split; [done|]. rewrite Ho, <- app_assoc. f_equal. f_equal.
    cbn [omap list_omap]. by destruct (_dict_to_list cols stats).
Qed.

(** C2, as the code has it. The first call of a run opens the output file
    for writing: whatever the file held before the run is replaced by the
    header and the row of the first record. Every later call of the run
    appends: the content before the call is kept as it is, followed by the
    row of the record when the record is accepted, and by nothing
    otherwise. Over a run the file is therefore the header, written once
    by the first call whether or not the destination held data, followed
    by the rows of the accepted records in their order. *)
Theorem incremental_persistence
    (old : option (list row)) (first : record) (later : list record) :
  let header := _get_column_order first in
  output (save_player_to_csv (fresh old) first).1
    = Some [header; row_of header first]
  /\ (forall self stats cols content,
        csv_initialized self = true -> columns self = Some cols ->
        output self = Some content ->
        output (save_player_to_csv self stats).1
        = Some (content ++ option_list (_dict_to_list cols stats)))
  /\ output (save_all (fresh old) (first :: later))
     = Some (header :: row_of header first :: omap (_dict_to_list header) later).
Proof.
  intros header. split; [by rewrite first_call|]. split.
  - intros self stats cols content Hinit Hcols Hout.
    by apply later_call.
  - unfold save_all. cbn [foldl]. rewrite first_call. cbn [fst].
    match goal with |- output (foldl _ ?s _) = _ =>
      destruct (later_calls later s header [header; row_of header first])
        as [_ Hout]; try done end.
Qed.

(** A run over a file an earlier run left: the old rows are gone after
    the first call; the second record is refused and leaves the file as it
    is; the third is appended. *)
Lemma incremental_persistence_witness :
  output (save_all (fresh (Some old_output)) [rec_ab; rec_abc; rec_a])
  = Some [[lit "a"; lit "b"]; [lit "1"; lit "2"]; [lit "1"; []]]
  /\ (let sink := save_all (fresh (Some old_output)) [rec_ab] in
      output (save_player_to_csv sink rec_a).1
      = Some ([[lit "a"; lit "b"]; [lit "1"; lit "2"]] ++ [[lit "1"; []]])).
Proof.
  destruct (incremental_persistence (Some old_output) rec_ab [rec_abc; rec_a])
    as (_ & Happend & Hrun).
  split; [rewrite Hrun; reflexivity|].
  cbv zeta. rewrite (Happend _ rec_a [lit "a"; lit "b"]
                       [[lit "a"; lit "b"]; [lit "1"; lit "2"]]);
    reflexivity.
Defined.

(** The destination holds data before the run begins: the first call of
    the run writes a header all the same, and the rows that were there are
    no longer in the file. *)
Lemma first_write_replaces_the_file :
  let after := output (save_player_to_csv (fresh (Some old_output)) rec_ab).1 in
  after = Some [[lit "a"; lit "b"]; [lit "1"; lit "2"]]
  /\ ~ (exists content, after = Some content /\ old_output `prefix_of` content).
Proof.
  cbv zeta.
  assert (Hafter : output (save_player_to_csv (fresh (Some old_output)) rec_ab).1
                   = Some [[lit "a"; lit "b"]; [lit "1"; lit "2"]]) by reflexivity.
  split; [exact Hafter|].
  intros (content & Hcontent & rest & Hpre). rewrite Hafter in Hcontent.
  injection Hcontent as <-. cbv in Hpre. discriminate Hpre.
Qed.

End Persistence.

Module Retry.
Import Samples.

Lemma sofifa_before_visit (retries idx : nat) (url : str) (self : SoFIFA.scraper) :
  SoFIFA.navigations (SoFIFA.before_visit retries idx url self)
    = S (SoFIFA.navigations self)
  /\ SoFIFA.output (SoFIFA.before_visit retries idx url self) = SoFIFA.output self
  /\ SoFIFA.columns (SoFIFA.before_visit retries idx url self) = SoFIFA.columns self
  /\ SoFIFA.player_stats (SoFIFA.before_visit retries idx url self)
     = SoFIFA.player_stats self.
Proof.
  unfold SoFIFA.before_visit, SoFIFA.navigations.
  destruct (0 <? retries)%nat, (1 <? idx)%nat; simpl;
    rewrite ?List.filter_app, ?length_app; simpl; repeat split; lia.
Qed.

(** The per-URL loop of [scrape_player_stats]: when every pass fails, the
    loop makes exactly the remaining number of attempts, ends without
    success, and leaves the sink as it was. *)
Lemma sofifa_exhaustion (site : nat -> nat -> SoFIFA.visit) (idx : nat) (url : str)
    (remaining : nat) :
  forall retries self,
  (forall r, retries <= r < retries + remaining ->
     SoFIFA.fails (site idx r) = true) ->
  let r := SoFIFA.attempts site remaining retries idx url self in
  r.2 = false
  /\ SoFIFA.navigations r.1 = SoFIFA.navigations self + remaining
  /\ SoFIFA.output r.1 = SoFIFA.output self
  /\ SoFIFA.player_stats r.1 = SoFIFA.player_stats self.
Proof.
  induction remaining as [|remaining IH]; intros retries self Hfail.
  - simpl. repeat split; lia.
  - cbn [SoFIFA.attempts]. cbv zeta.
    pose proof (Hfail retries ltac:(lia)) as Hnow.
    destruct (sofifa_before_visit retries idx url self) as (Hn & Ho & _ & Hp).
    set (self' := SoFIFA.before_visit retries idx url self) in *.
    destruct (IH (S retries) self') as (H1 & H2 & H3 & H4).
    { intros r Hr. apply Hfail. lia. }
    assert (Hgoal : (SoFIFA.attempts site remaining (S retries) idx url self').2 = false
      /\ SoFIFA.navigations (SoFIFA.attempts site remaining (S retries) idx url self').1
         = SoFIFA.navigations self + S remaining
      /\ SoFIFA.output (SoFIFA.attempts site remaining (S retries) idx url self').1
         = SoFIFA.output self
      /\ SoFIFA.player_stats (SoFIFA.attempts site remaining (S retries) idx url self').1
         = SoFIFA.player_stats self).
    { rewrite H1, H2, H3, H4, Hn, Ho, Hp. repeat split; lia. }
    destruct (site idx retries) as [|c1 c2 stats]; [exact Hgoal|].
    simpl in Hnow. destruct (_ && _); [exact Hgoal|].
    simpl in Hnow. apply negb_true_iff in Hnow. rewrite Hnow. exact Hgoal.
Qed.

(** After the exhaustion the URL is skipped and the [for] loop goes on
    with the next one. *)
Lemma sofifa_moves_on (site : nat -> nat -> SoFIFA.visit) (idx : nat)
    (url : str) (rest : list str) (self : SoFIFA.scraper) :
  (forall r, r < SoFIFA.max_retries -> SoFIFA.fails (site idx r) = true) ->
  let skipped := SoFIFA.scrape_one site idx url self in
  SoFIFA.scrape_from site idx (url :: rest) self
    = SoFIFA.scrape_from site (S idx) rest skipped
  /\ SoFIFA.navigations skipped = SoFIFA.navigations self + SoFIFA.max_retries
  /\ last (SoFIFA.log skipped) = Some (SoFIFA.Skipped url)
  /\ SoFIFA.output skipped = SoFIFA.output self.
Proof.
  intros Hfail skipped. split; [done|]. subst skipped. unfold SoFIFA.scrape_one.
  destruct (sofifa_exhaustion site idx url SoFIFA.max_retries 0 self)
    as (H1 & H2 & H3 & _).
  { intros r Hr. apply Hfail. lia. }
  destruct (SoFIFA.attempts site SoFIFA.max_retries 0 idx url self) as [r ok].
  cbn [fst snd] in *. subst ok. cbv iota.
  unfold SoFIFA.navigations in *. unfold SoFIFA.add_event.
  cbn [SoFIFA.log SoFIFA.output].
  rewrite List.filter_app, length_app, last_snoc, H2.
  cbn [List.filter SoFIFA.is_goto length]. repeat split; try done; lia.
Qed.

Lemma urls_before_visit (retries : nat) (self : PlayerURLs.scraper) :
  PlayerURLs.navigations (PlayerURLs.before_visit retries self)
    = S (PlayerURLs.navigations self)
  /\ PlayerURLs.offset (PlayerURLs.before_visit retries self) = PlayerURLs.offset self
  /\ PlayerURLs.page_num (PlayerURLs.before_visit retries self)
     = PlayerURLs.page_num self
  /\ PlayerURLs.all_player_urls (PlayerURLs.before_visit retries self)
     = PlayerURLs.all_player_urls self.
Proof.
  unfold PlayerURLs.before_visit, PlayerURLs.navigations.
  destruct (0 <? retries)%nat, (1 <? PlayerURLs.page_num _)%nat; simpl;
    rewrite ?List.filter_app, ?length_app; simpl; repeat split; lia.
Qed.

(** The per-page loop of [scrape_all_player_urls] in front of a challenge
    that stays: the attempts are made, and [has_next] comes out as it went
    in. *)
Lemma challenged_attempts (remaining : nat) :
  forall retries has_next self,
  let r := PlayerURLs.attempts always_challenged remaining retries has_next self in
  r.2 = has_next
  /\ PlayerURLs.navigations r.1 = PlayerURLs.navigations self + remaining
  /\ PlayerURLs.offset r.1 = PlayerURLs.offset self
  /\ PlayerURLs.all_player_urls r.1 = PlayerURLs.all_player_urls self.
Proof.
  induction remaining as [|remaining IH]; intros retries has_next self.
  - simpl. repeat split; lia.
  - cbn [PlayerURLs.attempts]. cbv zeta.
    change (always_challenged _ _) with
      (PlayerURLs.Loaded (lit "<title>Just a moment...</title>")
         (lit "<title>Just a moment...</title>") [] false).
    cbv iota beta.
    replace (SoFIFA.challenge_detected (lit "<title>Just a moment...</title>")
             && SoFIFA.challenge_still_present (lit "<title>Just a moment...</title>"))
      with true by reflexivity.
    destruct (urls_before_visit retries self) as (Hn & Ho & _ & Hu).
    destruct (IH (S retries) has_next (PlayerURLs.before_visit retries self))
      as (H1 & H2 & H3 & H4).
    rewrite H1, H2, H3, H4, Hn, Ho, Hu. repeat split; lia.
Qed.

Lemma challenged_loop (fuel : nat) :
  forall self,
  let r := PlayerURLs.listing_loop always_challenged fuel true self in
  r.1 = false
  /\ PlayerURLs.navigations r.2
     = PlayerURLs.navigations self + PlayerURLs.max_retries * fuel
  /\ PlayerURLs.offset r.2 = PlayerURLs.offset self.
Proof.
  induction fuel as [|fuel IH]; intros self.
  - simpl. repeat split; lia.
  - cbn [PlayerURLs.listing_loop]. cbv zeta.
    destruct (challenged_attempts PlayerURLs.max_retries 0 true self)
      as (H1 & H2 & H3 & _).
    rewrite H1.
    destruct (IH (PlayerURLs.attempts always_challenged PlayerURLs.max_retries
                    0 true self).1) as (G1 & G2 & G3).
    rewrite G1, G2, G3, H2, H3. repeat split; lia.
Qed.

Lemma listing_loop_ended (site : nat -> nat -> PlayerURLs.visit) (fuel : nat)
    (self : PlayerURLs.scraper) :
  PlayerURLs.listing_loop site fuel false self = (true, self).
Proof. by destruct fuel. Qed.

(** C8, at the input on which the code departs from it. A listing page
    that shows the challenge at every visit: the per-page retry loop of
    [scrape_all_player_urls] gives up after its three attempts, but
    [has_next] is still true, so the outer loop starts over on the same
    offset with the count of retries back at zero. Whatever the number of
    outer turns, the loop has not ended, it is still at offset 0, and it
    has made three navigations for each turn. With exceptions in place of
    the challenge the same loop ends after three navigations, and the
    per-URL loop of [scrape_player_stats] ends after five and goes on to
    the next URL. *)
Theorem retry_exhaustion_on_persistent_challenge (fuel : nat) :
  (let r := PlayerURLs.scrape_all_player_urls always_challenged fuel
              (PlayerURLs.fresh ∅) in
   r.1 = false
   /\ PlayerURLs.navigations r.2 = 3 * fuel
   /\ PlayerURLs.offset r.2 = 0)
  /\ (let r := PlayerURLs.scrape_all_player_urls always_raising (S fuel)
                 (PlayerURLs.fresh ∅) in
      r.1 = true /\ PlayerURLs.navigations r.2 = 3)
  /\ (let r := SoFIFA.scrape_one always_timing_out 1 (lit "/player/1")
                 (SoFIFA.fresh None) in
      SoFIFA.navigations r = 5
      /\ last (SoFIFA.log r) = Some (SoFIFA.Skipped (lit "/player/1"))).
Proof.
  split; [|split].
  - apply (challenged_loop fuel (PlayerURLs.fresh ∅)).
  - cbv zeta. unfold PlayerURLs.scrape_all_player_urls.
    cbn [PlayerURLs.listing_loop]. cbv zeta.
    assert (Hr : (PlayerURLs.attempts always_raising PlayerURLs.max_retries 0
                    true (PlayerURLs.fresh ∅)).2 = false
                 /\ PlayerURLs.navigations
                      (PlayerURLs.attempts always_raising PlayerURLs.max_retries 0
                         true (PlayerURLs.fresh ∅)).1 = 3) by (split; reflexivity).
    destruct (PlayerURLs.attempts always_raising PlayerURLs.max_retries 0
                true (PlayerURLs.fresh ∅)) as [self has_next].
    cbn [fst snd] in *. destruct Hr as [-> Hn].
    by rewrite listing_loop_ended.
  - split; reflexivity.
Qed.

End Retry.

Module Normalize.
Import WhoScored Samples.

(** Facts about the character classes, by arithmetic on the code point. *)
Ltac classes :=
  unfold word_char, not_alnum_space, is_pct_slash, is_lower_az, is_digit,
    is_upper_AZ, is_ascii, isspace, ascii_lower in *;
  simpl N_of_ascii in *;
  rewrite ?negb_true_iff, ?negb_false_iff in *;
  rewrite ?orb_true_iff, ?orb_false_iff, ?andb_true_iff, ?andb_false_iff,
    ?N.leb_le, ?N.leb_gt, ?N.eqb_eq, ?N.eqb_neq, ?N.ltb_lt, ?N.ltb_ge in *.

Abbreviation is_us := (in_chars (lit "_")).
Abbreviation wordish := (fun c : char => word_char c || is_us c).

Lemma is_us_spec (c : char) : is_us c = (c =? 95)%N.
Proof.
  unfold in_chars. change (lit "_") with [95%N].
  destruct (N.eqb_spec c 95) as [->|Hne].
  - apply bool_decide_eq_true. by left.
  - apply bool_decide_eq_false. by rewrite list_elem_of_singleton.
Qed.

Lemma word_char_bounds (c : char) :
  word_char c = true <-> (97 <= c <= 122 \/ 48 <= c <= 57)%N.
Proof. classes. tauto. Qed.

Lemma word_char_facts (c : char) :
  word_char c = true ->
  is_us c = false /\ isspace c = false /\ not_alnum_space c = false
  /\ is_pct_slash c = false /\ ascii_lower c = c /\ is_ascii c = true.
Proof.
  intros H%word_char_bounds. rewrite is_us_spec.
  assert (Hup : is_upper_AZ c = false) by (classes; lia).
  unfold ascii_lower. rewrite Hup. repeat split; classes; lia.
Qed.

Lemma underscore_facts (c : char) :
  is_us c = true ->
  c = 95%N /\ isspace c = false /\ not_alnum_space c = true
  /\ is_pct_slash c = false /\ ascii_lower c = c /\ is_ascii c = true.
Proof.
  rewrite is_us_spec, N.eqb_eq. intros ->. by vm_compute.
Qed.

(** *** [lstrip], [rstrip] *)

Lemma lstrip_by_suffix (p : char -> bool) (s : str) :
  exists dropped, s = dropped ++ lstrip_by p s.
Proof.
  induction s as [|c s [d IH]]; [by exists []|]. simpl.
  destruct (p c); [|by exists []]. exists (c :: d). by rewrite IH at 1.
Qed.

Lemma lstrip_by_head_free (p : char -> bool) (s : str) :
  head_free p (lstrip_by p s) = true.
Proof.
  induction s as [|c s IH]; [done|]. simpl.
  destruct (p c) eqn:E; [done|]. simpl. by rewrite E.
Qed.

Lemma lstrip_by_id (p : char -> bool) (s : str) :
  head_free p s = true -> lstrip_by p s = s.
Proof. destruct s as [|c s]; [done|]. simpl. by destruct (p c). Qed.

Lemma rstrip_by_prefix (p : char -> bool) (s : str) :
  exists dropped, s = rstrip_by p s ++ dropped.
Proof.
  unfold rstrip_by. destruct (lstrip_by_suffix p (rev s)) as [d Hd].
  exists (rev d). by rewrite <- rev_app_distr, <- Hd, rev_involutive.
Qed.

Lemma strip_by_id (p : char -> bool) (s : str) :
  head_free p s = true -> head_free p (rev s) = true -> strip_by p s = s.
Proof.
  intros H1 H2. unfold strip_by, rstrip_by.
  by rewrite (lstrip_by_id p s), (lstrip_by_id p (rev s)), rev_involutive.
Qed.

Lemma head_free_prefix (p : char -> bool) (s t : str) :
  head_free p (s ++ t) = true -> head_free p s = true.
Proof. by destruct s. Qed.

(** *** [sep_ok] *)

Lemma sep_ok_weaken (p : char -> bool) (s : str) (b : bool) :
  sep_ok p b s = true -> sep_ok p false s = true.
Proof.
  destruct s as [|c s]; [done|]. simpl. destruct (p c); [|done].
  by destruct b.
Qed.

Lemma sep_ok_suffix (p : char -> bool) (s t : str) : forall b,
  sep_ok p b (s ++ t) = true -> sep_ok p false t = true.
Proof.
  induction s as [|c s IH]; intros b; simpl; [apply sep_ok_weaken|].
  destruct (p c); [|apply IH]. intros [_ H]%andb_true_iff. by eapply IH.
Qed.

Lemma sep_ok_prefix (p : char -> bool) (s t : str) : forall b,
  sep_ok p b (s ++ t) = true -> sep_ok p b s = true.
Proof.
  induction s as [|c s IH]; intros b; simpl; [done|].
  destruct (p c); [|apply IH]. intros [-> H]%andb_true_iff. by eapply IH.
Qed.

Lemma sep_ok_ext (p q : char -> bool) (s : str) : forall b,
  Forall (fun c => p c = q c) s -> sep_ok p b s = sep_ok q b s.
Proof.
  induction s as [|c s IH]; intros b Hpq; [done|].
  apply Forall_cons in Hpq as [Hc Hs]. simpl. rewrite Hc.
  by rewrite !IH.
Qed.

Lemma sep_ok_map (p q : char -> bool) (g : char -> char) (s : str) : forall b,
  Forall (fun c => p (g c) = q c) s ->
  sep_ok p b (List.map g s) = sep_ok q b s.
Proof.
  induction s as [|c s IH]; intros b Hpq; [done|].
  apply Forall_cons in Hpq as [Hc Hs]. simpl. rewrite Hc.
  by rewrite !IH.
Qed.

(** *** [re.sub] on runs *)

Lemma sub_runs_none (cls : char -> bool) (repl s : str) : forall b,
  Forall (fun c => cls c = false) s -> sub_runs_from cls repl b s = s.
Proof.
  induction s as [|c s IH]; intros b Hs; [done|].
  apply Forall_cons in Hs as [Hc Hs]. simpl. rewrite Hc. by rewrite IH.
Qed.

(** When the characters of the class stand alone, the substitution is a
    map. *)
Lemma sub_runs_single (cls : char -> bool) (r : char) (g : char -> char)
    (s : str) : forall b,
  sep_ok cls b s = true ->
  Forall (fun c => g c = if cls c then r else c) s ->
  sub_runs_from cls [r] b s = List.map g s.
Proof.
  induction s as [|c s IH]; intros b Hsep Hg; [done|].
  apply Forall_cons in Hg as [Hc Hs]. simpl in *. rewrite Hc.
  destruct (cls c).
  - apply andb_true_iff in Hsep as [->%negb_true_iff Hsep]. simpl.
    by rewrite IH.
  - by rewrite IH.
Qed.

Lemma sub_runs_keeps (cls : char -> bool) (repl : str) (P : char -> Prop)
    (s : str) : forall b,
  Forall P repl -> Forall (fun c => cls c = false -> P c) s ->
  Forall P (sub_runs_from cls repl b s).
Proof.
  induction s as [|c s IH]; intros b Hrepl Hs; [constructor|].
  apply Forall_cons in Hs as [Hc Hs]. simpl. destruct (cls c) eqn:E.
  - apply Forall_app. split; [by destruct b | by apply IH].
  - constructor; [by apply Hc | by apply IH].
Qed.

(** After the second substitution only words and white space are left;
    the third turns each run of white space into one underscore. *)
Lemma spaces_to_underscores (s : str) : forall b,
  Forall (fun c => not_alnum_space c = false) s ->
  Forall (fun c => wordish c = true) (sub_runs_from isspace (lit "_") b s)
  /\ sep_ok is_us b (sub_runs_from isspace (lit "_") b s) = true.
Proof.
  induction s as [|c s IH]; intros b Hs; [done|].
  apply Forall_cons in Hs as [Hc Hs]. simpl. destruct (isspace c) eqn:E.
  - destruct (IH true Hs) as [IH1 IH2]. destruct b; simpl; [done|].
    split; [by constructor|]. exact IH2.
  - destruct (IH false Hs) as [IH1 IH2].
    assert (Hw : word_char c = true) by (classes; lia).
    destruct (word_char_facts c Hw) as (Hus & _). simpl. rewrite Hus.
    split; [|done]. constructor; [|done]. by rewrite Hw.
Qed.

Lemma forallb_Forall (P : char -> bool) (s : str) :
  forallb P s = true <-> Forall (fun c => P c = true) s.
Proof. rewrite forallb_forall, Forall_forall. by setoid_rewrite list_elem_of_In. Qed.

Lemma normal_form_spec (t : str) :
  normal_form t = true
  <-> Forall (fun c => wordish c = true) t
      /\ sep_ok is_us false t = true
      /\ head_free is_us t = true
      /\ head_free is_us (rev t) = true.
Proof.
  unfold normal_form. rewrite !andb_true_iff, forallb_Forall. tauto.
Qed.

Lemma wordish_head_no_space (t : str) :
  Forall (fun c => wordish c = true) t -> head_free is_us t = true ->
  head_free isspace t = true.
Proof.
  destruct t as [|c t]; [done|]. intros [Hc _]%Forall_cons. simpl.
  intros Hus%negb_true_iff. rewrite Hus, orb_false_r in Hc.
  by destruct (word_char_facts c Hc) as (_ & -> & _).
Qed.

Lemma wordish_cases (c : char) :
  wordish c = true -> word_char c = true \/ is_us c = true.
Proof. by intros ?%orb_true_iff. Qed.

Section Idempotence.
Variable lower : str -> str.
(** On ASCII text [str.lower()] works character by character. *)
Hypothesis lower_on_ascii : forall s,
  forallb is_ascii s = true -> lower s = List.map ascii_lower s.

Lemma normalize_output (s : str) : normal_form (_normalize_header lower s) = true.
Proof.
  unfold _normalize_header, re_sub_runs, strip_chars.
  set (s2 := sub_runs_from is_pct_slash (lit " ") false (lower (strip s))).
  set (s3 := sub_runs_from not_alnum_space (lit " ") false s2).
  assert (H3 : Forall (fun c => not_alnum_space c = false) s3).
  { apply sub_runs_keeps; [by repeat constructor|]. by apply Forall_true. }
  destruct (spaces_to_underscores s3 false H3) as [H4 Hsep].
  set (s4 := sub_runs_from isspace (lit "_") false s3) in *.
  unfold strip_by.
  destruct (lstrip_by_suffix is_us s4) as [d1 Hd1].
  set (l := lstrip_by is_us s4) in *.
  destruct (rstrip_by_prefix is_us l) as [d2 Hd2].
  apply normal_form_spec. split; [|split; [|split]].
  - rewrite Hd1, Hd2 in H4.
    by apply Forall_app in H4 as [_ [H4 _]%Forall_app].
  - rewrite Hd1 in Hsep. apply sep_ok_suffix in Hsep.
    rewrite Hd2 in Hsep. by apply sep_ok_prefix in Hsep.
  - apply (head_free_prefix is_us _ d2). rewrite <- Hd2.
    apply lstrip_by_head_free.
  - unfold rstrip_by. rewrite rev_involutive. apply lstrip_by_head_free.
Qed.

Lemma normalize_fixes_normal_forms (t : str) :
  normal_form t = true -> _normalize_header lower t = t.
Proof.
  intros (Hw & Hsep & Hhead & Hlast)%normal_form_spec.
  assert (Hwrev : Forall (fun c => wordish c = true) (rev t)).
  { by apply Forall_rev. }
  unfold _normalize_header, re_sub_runs, strip_chars.
  (* [strip()] *)
  unfold strip. rewrite (strip_by_id isspace t) by by apply wordish_head_no_space.
  (* [lower()] *)
  rewrite lower_on_ascii.
  2:{ apply forallb_Forall. eapply Forall_impl; [exact Hw|].
      intros c [Hc|Hc]%wordish_cases.
      - by destruct (word_char_facts c Hc) as (_ & _ & _ & _ & _ & ->).
      - by destruct (underscore_facts c Hc) as (_ & _ & _ & _ & _ & ->). }
  replace (List.map ascii_lower t) with t.
  2:{ symmetry. rewrite <- (map_id t) at 2. apply map_ext_Forall.
      eapply Forall_impl; [exact Hw|]. intros c [Hc|Hc]%wordish_cases.
      - by destruct (word_char_facts c Hc) as (_ & _ & _ & _ & -> & _).
      - by destruct (underscore_facts c Hc) as (_ & _ & _ & _ & -> & _). }
  (* [%] and [/] *)
  rewrite (sub_runs_none is_pct_slash).
  2:{ eapply Forall_impl; [exact Hw|]. intros c [Hc|Hc]%wordish_cases.
      - by destruct (word_char_facts c Hc) as (_ & _ & _ & -> & _).
      - by destruct (underscore_facts c Hc) as (_ & _ & _ & -> & _). }
  (* each underscore becomes a space ... *)
  rewrite (sub_runs_single not_alnum_space 32%N
             (fun c => if is_us c then 32%N else c)).
  2:{ rewrite (sep_ok_ext _ is_us); [done|].
      eapply Forall_impl; [exact Hw|]. intros c [Hc|Hc]%wordish_cases.
      - by destruct (word_char_facts c Hc) as (-> & _ & -> & _).
      - by destruct (underscore_facts c Hc) as (_ & _ & -> & _). }
  2:{ eapply Forall_impl; [exact Hw|]. intros c [Hc|Hc]%wordish_cases.
      - by destruct (word_char_facts c Hc) as (-> & _ & -> & _).
      - rewrite Hc. by destruct (underscore_facts c Hc) as (_ & _ & -> & _). }
  (* ... and each space an underscore again *)
  rewrite (sub_runs_single isspace 95%N
             (fun c => if (c =? 32)%N then 95%N else c)).
  2:{ rewrite (sep_ok_map _ is_us); [done|].
      eapply Forall_impl; [exact Hw|]. intros c [Hc|Hc]%wordish_cases.
      - by destruct (word_char_facts c Hc) as (-> & -> & _).
      - by rewrite Hc. }
  2:{ apply Forall_fmap. eapply Forall_impl; [exact Hw|].
      intros c [Hc|Hc]%wordish_cases; simpl.
      - destruct (word_char_facts c Hc) as (-> & -> & _).
        destruct (N.eqb_spec c 32) as [->|]; [by vm_compute in Hc | done].
      - by rewrite Hc. }
  rewrite List.map_map. replace (List.map _ t) with t.
  2:{ symmetry. rewrite <- (map_id t) at 2. apply map_ext_Forall.
      eapply Forall_impl; [exact Hw|]. intros c [Hc|Hc]%wordish_cases; simpl.
      - destruct (word_char_facts c Hc) as (-> & _).
        destruct (N.eqb_spec c 32) as [->|]; [by vm_compute in Hc | done].
      - rewrite Hc. by destruct (underscore_facts c Hc) as (-> & _). }
  by apply strip_by_id.
Qed.

(** C10. [_normalize_header] is idempotent: its output is always made of
    words of [a-z0-9] joined by single underscores, without an underscore
    in front or at the end, and every string of that shape is a fixed
    point of the function. *)
Theorem normalize_header_idempotent (s : str) :
  normal_form (_normalize_header lower s) = true
  /\ _normalize_header lower (_normalize_header lower s)
     = _normalize_header lower s
  /\ (forall t, normal_form t = true -> _normalize_header lower t = t).
Proof.
  split; [apply normalize_output|]. split.
  - apply normalize_fixes_normal_forms, normalize_output.
  - apply normalize_fixes_normal_forms.
Qed.
End Idempotence.

Lemma normalize_header_idempotent_witness :
  _normalize_header lower_ascii (lit "  Goals/90 (%) ") = lit "goals_90"
  /\ _normalize_header lower_ascii
       (_normalize_header lower_ascii (lit "  Goals/90 (%) "))
     = _normalize_header lower_ascii (lit "  Goals/90 (%) ").
Proof.
  assert (Hlower : forall s, forallb is_ascii s = true ->
            lower_ascii s = List.map ascii_lower s) by (intros s _; reflexivity).
  destruct (normalize_header_idempotent lower_ascii Hlower
              (lit "  Goals/90 (%) ")) as (_ & Hidem & _).
  split; [reflexivity | exact Hidem].
Defined.

End Normalize.

(* --------------------------------------------------------------------- *)
(** ** Further properties: text helpers *)
(* --------------------------------------------------------------------- *)

Module StripFacts.
Import WhoScored Normalize.

Lemma strip_by_infix (p : char -> bool) (s : str) :
  exists front back, s = front ++ strip_by p s ++ back.
Proof.
  destruct (lstrip_by_suffix p s) as [front Hfront].
  destruct (rstrip_by_prefix p (lstrip_by p s)) as [back Hback].
  exists front, back. unfold strip_by. by rewrite <- Hback.
Qed.

Lemma strip_by_head_free (p : char -> bool) (s : str) :
  head_free p (strip_by p s) = true.
Proof.
  destruct (rstrip_by_prefix p (lstrip_by p s)) as [back Hback].
  apply (head_free_prefix p _ back). unfold strip_by. rewrite <- Hback.
  apply lstrip_by_head_free.
Qed.

Lemma strip_by_last_free (p : char -> bool) (s : str) :
  head_free p (rev (strip_by p s)) = true.
Proof.
  unfold strip_by, rstrip_by. rewrite rev_involutive. apply lstrip_by_head_free.
Qed.

Lemma strip_by_idemp (p : char -> bool) (s : str) :
  strip_by p (strip_by p s) = strip_by p s.
Proof. apply strip_by_id; [apply strip_by_head_free | apply strip_by_last_free]. Qed.

Lemma strip_by_Forall (p : char -> bool) (P : char -> Prop) (s : str) :
  Forall P s -> Forall P (strip_by p s).
Proof.
  destruct (strip_by_infix p s) as (front & back & Hs). intros H.
  rewrite Hs in H. by apply Forall_app in H as [_ [H _]%Forall_app].
Qed.

Lemma strip_by_sep_ok (p q : char -> bool) (s : str) (b : bool) :
  sep_ok q b s = true -> sep_ok q false (strip_by p s) = true.
Proof.
  destruct (strip_by_infix p s) as (front & back & Hs). intros H.
  rewrite Hs in H. apply sep_ok_suffix in H. by apply sep_ok_prefix in H.
Qed.

(** A replacement character of the class itself: the runs become single
    characters of the class. *)
Lemma sub_runs_sep_ok (cls : char -> bool) (r : char) (s : str) : forall b,
  cls r = true -> sep_ok cls b (sub_runs_from cls [r] b s) = true.
Proof.
  induction s as [|c s IH]; intros b Hr; [done|]. simpl.
  destruct (cls c) eqn:E.
  - destruct b; simpl; [by apply IH|]. rewrite Hr. simpl. by apply IH.
  - simpl. rewrite E. by apply IH.
Qed.

End StripFacts.

Module CleanText.
Import WhoScored Normalize StripFacts.

(** X1. [_clean_text] leaves no white space but single plain spaces
    between words: every white-space character of the result is the
    space U+0020, no two of them are neighbours, none stands at either
    end; the function is idempotent, and [None] gives the empty
    string. *)
Theorem clean_text_normalises (value : option str) :
  let out := _clean_text value in
  Forall (fun c => isspace c = true -> c = 32%N) out
  /\ sep_ok isspace false out = true
  /\ head_free isspace out = true
  /\ head_free isspace (rev out) = true
  /\ _clean_text (Some out) = out
  /\ _clean_text None = [].
Proof.
  intros out.
  assert (Hchars : Forall (fun c => isspace c = true -> c = 32%N) out).
  { apply strip_by_Forall, sub_runs_keeps.
    - by repeat constructor.
    - apply Forall_forall. intros c _ Hc Hc'. congruence. }
  assert (Hsep : sep_ok isspace false out = true).
  { apply (strip_by_sep_ok _ _ _ false), sub_runs_sep_ok. reflexivity. }
  assert (Hhead : head_free isspace out = true) by apply strip_by_head_free.
  assert (Hlast : head_free isspace (rev out) = true) by apply strip_by_last_free.
  repeat split; try done.
  unfold _clean_text, re_sub_runs. cbn [default].
  rewrite (sub_runs_single isspace 32%N (fun c => if isspace c then 32%N else c));
    [|done|by apply Forall_true].
  replace (List.map _ out) with out.
  - by apply strip_by_id.
  - symmetry. rewrite <- (map_id out) at 2. apply map_ext_Forall.
    eapply Forall_impl; [exact Hchars|]. intros c Hc. simpl.
    destruct (isspace c) eqn:E; [symmetry; by apply Hc | done].
Qed.

End CleanText.

Module ParseUrls.
Import WhoScored Normalize StripFacts.

Lemma split_pieces_free (cls : char -> bool) (s : str) : forall b,
  Forall (Forall (fun c => cls c = false)) (split_runs_from cls b s).
Proof.
  induction s as [|c s IH]; intros b; simpl; [by repeat constructor|].
  destruct (cls c) eqn:E.
  - destruct b; [apply IH|]. constructor; [constructor | apply IH].
  - specialize (IH false). destruct (split_runs_from cls false s) as [|p ps].
    + by repeat constructor.
    + apply Forall_cons in IH as [Hp Hps]. by repeat constructor.
Qed.

(** X2. Whatever the input, every URL [_parse_urls] returns is non-empty,
    carries no surrounding white space and contains neither a comma nor a
    line break. *)
Theorem parse_urls_clean (raw : str) : Forall clean_url (_parse_urls raw).
Proof.
  unfold _parse_urls, re_split_runs.
  pose proof (split_pieces_free is_newline_comma raw false) as Hfree.
  induction Hfree as [|piece pieces Hpiece _ IH]; [constructor|].
  simpl. destruct (truthy (strip piece)) eqn:E; [|exact IH].
  constructor; [|exact IH]. split; [by destruct (strip piece)|].
  split; [apply strip_by_idemp | by apply strip_by_Forall].
Qed.

Lemma split_word (cls : char -> bool) (u rest : str) : forall b,
  u <> [] -> Forall (fun c => cls c = false) u ->
  split_runs_from cls b (u ++ rest)
  = match split_runs_from cls false rest with
    | piece :: pieces => (u ++ piece) :: pieces
    | [] => [u]
    end.
Proof.
  induction u as [|c u IH]; intros b Hne Hu; [done|].
  apply Forall_cons in Hu as [Hc Hu]. simpl. rewrite Hc.
  destruct u as [|c' u]; [done|].
  rewrite (IH false) by done.
  by destruct (split_runs_from cls false rest).
Qed.

Lemma split_nonempty (cls : char -> bool) (s : str) (b : bool) :
  split_runs_from cls b s <> [].
Proof.
  revert b. induction s as [|c s IH]; intros b; simpl; [done|].
  destruct (cls c); [destruct b; [apply IH | done]|].
  by destruct (split_runs_from cls false s).
Qed.

Lemma split_separator (cls : char -> bool) (sep rest : str) :
  Forall (fun c => cls c = true) sep ->
  split_runs_from cls true (sep ++ rest) = split_runs_from cls true rest.
Proof.
  induction 1 as [|c sep Hc _ IH]; [done|]. simpl. by rewrite Hc.
Qed.

Lemma split_join (cls : char -> bool) (sep : str) (urls : list str) :
  sep <> [] -> Forall (fun c => cls c = true) sep ->
  Forall (fun u => u <> [] /\ Forall (fun c => cls c = false) u) urls ->
  urls <> [] ->
  forall b, split_runs_from cls b (join sep urls) = urls.
Proof.
  intros Hsep Hcls Hurls. induction Hurls as [|u urls [Hne Hu] Hrest IH];
    [done | intros _ b].
  destruct urls as [|u' urls].
  - simpl. rewrite <- (app_nil_r u) at 1. rewrite split_word by done.
    simpl. by rewrite app_nil_r.
  - change (join sep (u :: u' :: urls)) with (u ++ sep ++ join sep (u' :: urls)).
    rewrite split_word by done.
    destruct sep as [|c sep]; [done|].
    apply Forall_cons in Hcls as [Hc Hcls].
    change ((c :: sep) ++ ?x) with (c :: (sep ++ x)).
    cbn [split_runs_from]. rewrite Hc, split_separator by done.
    rewrite IH by done. by rewrite app_nil_r.
Qed.

(** X3. Round trip: clean URLs joined by any non-empty separator made of
    commas and line breaks are given back by [_parse_urls], the same URLs
    in the same order. *)
Theorem parse_urls_join (sep : str) (urls : list str) :
  sep <> [] -> Forall (fun c => is_newline_comma c = true) sep ->
  Forall clean_url urls ->
  _parse_urls (join sep urls) = urls.
Proof.
  intros Hsep Hcls Hurls. unfold _parse_urls, re_split_runs.
  destruct urls as [|u urls]; [done|].
  rewrite (split_join is_newline_comma sep (u :: urls)); try done.
  - induction Hurls as [|v vs (Hne & Hstrip & _) _ IH]; [done|].
    simpl. rewrite Hstrip. destruct v; [done|]. simpl. by rewrite IH.
  - eapply Forall_impl; [exact Hurls|]. by intros v (? & _ & ?).
Qed.

Lemma parse_urls_join_witness :
  _parse_urls (join (lit "," ++ [10%N])
                 [lit "https://www.whoscored.com/a"; lit "https://www.whoscored.com/b"])
  = [lit "https://www.whoscored.com/a"; lit "https://www.whoscored.com/b"].
Proof.
  apply parse_urls_join.
  - done.
  - by repeat constructor.
  - repeat constructor; try done; apply Forall_forall; intros c Hc;
      apply list_elem_of_In in Hc; simpl in Hc;
      repeat (destruct Hc as [<-|Hc]; [reflexivity|]); destruct Hc.
Defined.

End ParseUrls.

Module FlattenShape.
Import FBref WhoScored Normalize StripFacts.

(** X4. [_flatten_headers] gives one name for each column label, in the
    same order. The name of a string label carries no surrounding white
    space, and flattening it once more gives the same name; a tuple whose
    levels are all empty gets the empty name. *)
Theorem flatten_headers_shape (columns : list column_label) :
  length (_flatten_headers columns) = length columns
  /\ (forall i c, columns !! i = Some (Flat c) ->
        exists out, _flatten_headers columns !! i = Some out
          /\ head_free isspace out = true
          /\ head_free isspace (rev out) = true
          /\ flatten_label (Flat out) = out)
  /\ (forall i levels, columns !! i = Some (Levels levels) ->
        Forall (fun level => level = []) levels ->
        _flatten_headers columns !! i = Some []).
Proof.
  unfold _flatten_headers. split; [apply length_map|]. split.
  - intros i c Hi. exists (strip c). rewrite list_lookup_fmap, Hi.
    split; [done|]. split; [apply strip_by_head_free|].
    split; [apply strip_by_last_free | apply strip_by_idemp].
  - intros i levels Hi Hempty. rewrite list_lookup_fmap, Hi. simpl. f_equal.
    replace (List.filter truthy levels) with (@nil str); [done|].
    clear Hi. induction Hempty as [|level levels -> _ IH]; [done|].
    simpl. exact IH.
Qed.

End FlattenShape.

(* --------------------------------------------------------------------- *)
(** ** Further properties: the WhoScored tabs and rows *)
(* --------------------------------------------------------------------- *)

Module Tabs.
Import WhoScored Samples.

Lemma filter_sublist_of {A} (f : A -> bool) (l : list A) :
  List.filter f l `sublist_of` l.
Proof.
  induction l as [|x l IH]; [constructor|]. simpl.
  destruct (f x); by constructor.
Qed.

Lemma filter_all {A} (f : A -> bool) (l : list A) :
  Forall (fun x => f x = true) l -> List.filter f l = l.
Proof.
  induction 1 as [|x l Hx _ IH]; [done|]. simpl. by rewrite Hx, IH.
Qed.

Lemma tab_names_distinct : NoDup (List.map name TABS).
Proof. apply (bool_decide_unpack _). reflexivity. Qed.

Lemma selected_names_spec (lower : str -> str) (tabs : list str) (x : str) :
  x ∈ selected_names lower tabs
  <-> exists t, t ∈ tabs /\ lower (strip t) = x.
Proof.
  unfold selected_names. rewrite elem_of_list_to_set, list_elem_of_fmap.
  split; intros (t & H1 & H2); exists t; by split.
Qed.

(** X5. [_selected_tabs] answers with tabs of [TABS], in the order of
    [TABS], none twice: a tab is chosen when one of the requested names,
    stripped and lower-cased, is its name. The order of the request, and
    how often a name is given in it, do not matter. *)
Theorem selected_tabs_spec (lower : str -> str) (tabs : list str) :
  let chosen := _selected_tabs lower tabs in
  chosen `sublist_of` TABS
  /\ NoDup chosen
  /\ (forall tab, tab ∈ chosen
        <-> tab ∈ TABS /\ exists t, t ∈ tabs /\ lower (strip t) = name tab)
  /\ (forall tabs', (forall t, t ∈ tabs <-> t ∈ tabs') ->
        _selected_tabs lower tabs' = chosen).
Proof.
  intros chosen. subst chosen. unfold _selected_tabs.
  split; [apply filter_sublist_of|]. split; [|split].
  - apply NoDup_ListNoDup, List.NoDup_filter, NoDup_ListNoDup.
    eapply NoDup_fmap_1, tab_names_distinct.
  - intros tab. rewrite list_elem_of_In, List.filter_In, <- list_elem_of_In.
    by rewrite bool_decide_eq_true, selected_names_spec.
  - intros tabs' Hsame.
    replace (selected_names lower tabs') with (selected_names lower tabs); [done|].
    apply set_eq. intros x. rewrite !selected_names_spec.
    split; intros (t & Ht & Hx); exists t; (split; [by apply Hsame | done]).
Qed.

Section Default.
Variable lower : str -> str.
Hypothesis lower_on_ascii : forall s,
  forallb is_ascii s = true -> lower s = List.map ascii_lower s.

Lemma tab_names_normal :
  Forall (fun tab => lower (strip (name tab)) = name tab) TABS.
Proof.
  repeat constructor; simpl name;
    (rewrite lower_on_ascii by reflexivity); reflexivity.
Qed.

(** X6. Without a request (no list, or an empty one) every tab of [TABS]
    is scraped. *)
Theorem selected_tabs_default (tabs : option (list str)) :
  tabs = None \/ tabs = Some [] ->
  _selected_tabs lower (init_tabs tabs) = TABS.
Proof.
  intros Hnone.
  assert (init_tabs tabs = List.map name TABS) as ->
    by (by destruct Hnone as [-> | ->]).
  unfold _selected_tabs. apply filter_all.
  pose proof tab_names_normal as Hnormal.
  apply Forall_forall. intros tab Htab. apply bool_decide_eq_true.
  apply selected_names_spec. exists (name tab). split.
  - apply list_elem_of_fmap. by exists tab.
  - by apply (proj1 (Forall_forall _ _) Hnormal).
Qed.
End Default.

Lemma selected_tabs_default_witness :
  _selected_tabs lower_ascii (init_tabs (Some [])) = TABS.
Proof.
  apply selected_tabs_default.
  - intros s _. reflexivity.
  - by right.
Defined.

End Tabs.

Module RowData.
Import WhoScored Samples.

Lemma fill_values_player (headers : list str) : forall idx vals row_data,
  fill_values idx headers vals row_data !! lit "player"
  = row_data !! lit "player".
Proof.
  induction headers as [|h headers IH]; intros idx vals row_data; [done|].
  simpl. destruct (decide (h = lit "player")) as [->|Hne]; [apply IH|].
  destruct (vals !! idx); rewrite IH; [|done]. by rewrite lookup_insert_ne.
Qed.

Lemma fill_values_other (headers : list str) : forall idx vals row_data key,
  key ∉ headers ->
  fill_values idx headers vals row_data !! key = row_data !! key.
Proof.
  induction headers as [|h headers IH]; intros idx vals row_data key Hkey; [done|].
  apply not_elem_of_cons in Hkey as [Hne Hkey]. simpl.
  destruct (decide (h = lit "player")); [by apply IH|].
  destruct (vals !! idx); rewrite IH by done; [|done]. by rewrite lookup_insert_ne.
Qed.

Lemma fill_values_cell (headers : list str) : forall idx vals row_data i header,
  NoDup headers -> headers !! i = Some header -> header <> lit "player" ->
  fill_values idx headers vals row_data !! header
  = match vals !! (idx + i) with
    | Some v => Some v
    | None => row_data !! header
    end.
Proof.
  induction headers as [|h headers IH];
    intros idx vals row_data i header Hnd Hi Hplayer; [done|].
  apply NoDup_cons in Hnd as [Hh Hnd]. destruct i as [|i].
  - injection Hi as ->. rewrite Nat.add_0_r. simpl.
    rewrite decide_False by done.
    destruct (vals !! idx); rewrite fill_values_other by done; [|done].
    by rewrite lookup_insert_eq.
  - simpl in Hi. assert (h <> header).
    { intros ->. apply Hh. by eapply list_elem_of_lookup_2. }
    replace (idx + S i) with (S idx + i) by lia. cbn [fill_values].
    destruct (decide (h = lit "player"));
      [by apply (IH (S idx) vals row_data i header)|].
    destruct (vals !! idx) as [v|];
      [rewrite (IH (S idx) vals (<[h:=v]> row_data) i header) by done
      |by apply (IH (S idx) vals row_data i header)].
    destruct (vals !! (S idx + i)); [done|]. by rewrite lookup_insert_ne.
Qed.

Lemma provenance_lookup (url tab : str) (page : nat) (row : js_row) :
  provenance url tab page row !! lit "player" = None
  /\ provenance url tab page row !! lit "source_url" = Some url
  /\ provenance url tab page row !! lit "tab" = Some tab
  /\ provenance url tab page row !! lit "page" = Some (str_of_nat page).
Proof.
  unfold provenance. by repeat split.
Qed.

(** X7. How a table row becomes a record. The key [player] is never
    written; a key that is not a header keeps the value it had; when the
    headers are distinct, the header at position [i] gets the [i]-th cell
    of the row, and a header beyond the last cell gets nothing. Hence a
    record of [page_rows] has no key [player], and carries its source
    URL, tab and page number under [source_url], [tab] and [page] unless
    a header of the table has that name. *)
Theorem row_data_cells (headers vals : list str) (row_data : record) :
  let filled := fill_values 0 headers vals row_data in
  filled !! lit "player" = row_data !! lit "player"
  /\ (forall key, key ∉ headers -> filled !! key = row_data !! key)
  /\ (NoDup headers -> forall i header,
        headers !! i = Some header -> header <> lit "player" ->
        filled !! header = match vals !! i with
                           | Some v => Some v
                           | None => row_data !! header
                           end)
  /\ (forall lower url tab page (table_data : list str * list js_row) r,
        r ∈ page_rows lower url tab page table_data ->
        let table_headers :=
          _dedupe_headers (List.map (_normalize_header lower) table_data.1) in
        r !! lit "player" = None
        /\ (lit "source_url" ∉ table_headers -> r !! lit "source_url" = Some url)
        /\ (lit "tab" ∉ table_headers -> r !! lit "tab" = Some tab)
        /\ (lit "page" ∉ table_headers ->
              r !! lit "page" = Some (str_of_nat page))).
Proof.
  intros filled. subst filled.
  split; [apply fill_values_player|]. split; [by apply fill_values_other|].
  split; [intros Hnd i header; by apply (fill_values_cell headers 0)|].
  intros lower url tab page table_data r Hr table_headers.
  unfold page_rows in Hr. apply list_elem_of_fmap in Hr as (row & -> & _).
  fold table_headers.
  destruct (provenance_lookup url tab page row) as (Hp & Hu & Ht & Hn).
  split; [by rewrite fill_values_player|].
  repeat split; intros Hfree; by rewrite fill_values_other.
Qed.

Lemma row_data_cells_witness :
  fill_values 0 [lit "player"; lit "goals"; lit "assists"]
    [lit "Lionel Messi"; lit "12"] ∅ !! lit "goals" = Some (lit "12")
  /\ fill_values 0 [lit "player"; lit "goals"; lit "assists"]
       [lit "Lionel Messi"; lit "12"] ∅ !! lit "assists" = None.
Proof.
  destruct (row_data_cells [lit "player"; lit "goals"; lit "assists"]
              [lit "Lionel Messi"; lit "12"] ∅) as (_ & _ & Hcell & _).
  assert (Hnd : NoDup [lit "player"; lit "goals"; lit "assists"])
    by (apply (bool_decide_unpack _); reflexivity).
  split.
  - by rewrite (Hcell Hnd 1 (lit "goals")).
  - by rewrite (Hcell Hnd 2 (lit "assists")).
Defined.

End RowData.

Module TabLoop.
Import WhoScored Samples Pagination.

Lemma count_read (t : list event) (c : nat) :
  reads (t ++ [ReadPage c]) = S (reads t)
  /\ clicks (t ++ [ReadPage c]) = clicks t.
Proof.
  rewrite reads_app, clicks_app. unfold reads, clicks. simpl. lia.
Qed.

Lemma count_click (t : list event) (c : nat) :
  reads (t ++ [ClickNext c]) = reads t
  /\ clicks (t ++ [ClickNext c]) = S (clicks t).
Proof.
  rewrite reads_app, clicks_app. unfold reads, clicks. simpl. lia.
Qed.

(** X8. Whatever the browser shows and however the loop of [_scrape_tab]
    ends, the rows collected before are kept, in place, in front of the
    new ones, and the loop reads the page before each advancement
    request: when it stops at a [break] it has read one page more than
    it has clicked, and when the click raises as many. *)
Theorem scrape_tab_progress
    {W : Type} (look : W -> view) (press_next tick pause : W -> W)
    (polls : nat) (lower : str -> str) (max_pages : option Z) (url tab : str)
    (fuel : nat) (st : tab_state) :
  let r := _scrape_tab look press_next tick pause polls lower
             fuel max_pages url tab st in
  rows st `prefix_of` rows r.2
  /\ trace st `prefix_of` trace r.2
  /\ exists n,
       clicks (trace r.2) = clicks (trace st) + n
       /\ reads (trace r.2)
          = reads (trace st) + n + match r.1 with Stopped _ => 1 | _ => 0 end.
Proof.
  revert st. induction fuel as [|fuel IH]; intros st r; subst r.
  - simpl. repeat split; try done. exists 0. lia.
  - cbn [_scrape_tab]. cbv zeta.
    destruct (count_read (trace st) (current (read_page_info (look (world st)))))
      as [Hr1 Hc1].
    destruct (read_table_data (look (world st))).2 as [|row0 more] eqn:Erows.
    { cbn [fst snd rows trace]. split; [done|]. split; [by apply prefix_app_r|].
      exists 0. lia. }
    cbn [rows trace world].
    destruct (ceiling_reached _ _).
    { cbn [fst snd rows trace]. split; [by apply prefix_app_r|].
      split; [by apply prefix_app_r|]. exists 0. lia. }
    destruct (negb _).
    { cbn [fst snd rows trace]. split; [by apply prefix_app_r|].
      split; [by apply prefix_app_r|]. exists 0. lia. }
    match goal with |- context [?t ++ [ClickNext ?c]] =>
      destruct (count_click t c) as [Hr2 Hc2] end.
    destruct (_click_next _ _ _ _ _ _) as [w'|].
    + match goal with |- context [_scrape_tab _ _ _ _ _ _ _ _ _ _ ?s] =>
        destruct (IH s) as (Hrows & Htrace & n & Hc & Hr) end.
      cbn [rows trace] in *.
      split; [etrans; [|exact Hrows]; by apply prefix_app_r|].
      split; [etrans; [|exact Htrace]; rewrite <- app_assoc; by apply prefix_app_r|].
      exists (S n). lia.
    + cbn [fst snd rows trace]. split; [by apply prefix_app_r|].
      split; [rewrite <- app_assoc; by apply prefix_app_r|].
      exists 1. lia.
Qed.

End TabLoop.

(* --------------------------------------------------------------------- *)
(** ** Further properties: the CSV files *)
(* --------------------------------------------------------------------- *)

Module Columns.
Import Sorting Schema SoFIFA.

Lemma Sorted_lexico_NoDup (l : list str) : Sorted lexico l -> NoDup l.
Proof.
  intros Hsorted. apply Sorted_StronglySorted in Hsorted; [|apply _].
  induction Hsorted as [|x l _ IH Hx]; constructor; [|done].
  intros Hin. apply (proj1 (Forall_forall _ _) Hx) in Hin.
  by apply (irreflexivity lexico x).
Qed.

Lemma str_eqb_spec (s t : str) : str_eqb s t = true <-> s = t.
Proof.
  revert t. induction s as [|a s IH]; intros [|b t]; simpl;
    try (split; [discriminate | congruence]); try done.
  rewrite andb_true_iff, N.eqb_eq, IH.
  split; [by intros [-> ->] | by intros [= -> ->]].
Qed.

Lemma distinct_NoDup (l : list str) : distinct l = true -> NoDup l.
Proof.
  induction l as [|x l IH]; simpl; [constructor|].
  rewrite andb_true_iff, negb_true_iff. intros [Hx Hl]. constructor; [|auto].
  intros Hin. assert (existsb (str_eqb x) l = true); [|congruence].
  apply existsb_exists. exists x.
  split; [by apply list_elem_of_In | by apply str_eqb_spec].
Qed.

Lemma priority_cols_distinct : NoDup priority_cols.
Proof. apply distinct_NoDup. reflexivity. Qed.

Lemma base_columns_distinct : NoDup WhoScored.base_columns.
Proof. apply distinct_NoDup. reflexivity. Qed.

Lemma columns_cell (cols : list str) (stats : record) (key v : str) :
  key ∈ cols -> stats !! key = Some v ->
  exists j, cols !! j = Some key /\ row_of cols stats !! j = Some v.
Proof.
  intros [j Hj]%list_elem_of_lookup_1 Hv. exists j. split; [done|].
  by rewrite (row_of_lookup cols stats j key), Hv.
Qed.

(** X9. The column order of the SoFIFA sink is an arrangement of the keys
    of the record: every key of the record is a column, every column is a
    key, no column comes twice, so there are as many columns as fields;
    and the value of each field stands in the row under the column of its
    key. *)
Theorem column_order_permutation (stats : record) :
  NoDup (_get_column_order stats)
  /\ (forall key, key ∈ _get_column_order stats <-> key ∈ dom stats)
  /\ length (_get_column_order stats) = size stats
  /\ (forall key v, stats !! key = Some v ->
        exists j, _get_column_order stats !! j = Some key
                  /\ row_of (_get_column_order stats) stats !! j = Some v).
Proof.
  destruct (column_order_spec stats) as (others & Heq & Hsorted & Hothers).
  assert (Hnd : NoDup (_get_column_order stats)).
  { rewrite Heq. apply NoDup_app. split; [|split].
    - apply NoDup_filter, priority_cols_distinct.
    - intros key [_ Hprio]%list_elem_of_filter [_ Hnot]%Hothers. done.
    - by apply Sorted_lexico_NoDup. }
  assert (Hin : forall key, key ∈ _get_column_order stats <-> key ∈ dom stats).
  { intros key. rewrite Heq, elem_of_app, list_elem_of_filter, Hothers.
    destruct (decide (key ∈ priority_cols)); tauto. }
  split; [done|]. split; [done|]. split.
  - rewrite <- size_dom. unfold size, set_size. simpl. apply Permutation_length.
    apply NoDup_Permutation; [done | apply NoDup_elements|].
    intros key. by rewrite Hin, elem_of_elements.
  - intros key v Hv. apply columns_cell; [|done]. apply Hin.
    apply elem_of_dom. by exists v.
Qed.

(** X10. [_write_csv] without rows writes nothing and leaves the file as
    it is. With rows it writes a rectangular table: the header and one
    line for each row, every line as long as the header; the nine base
    columns come first and no column comes twice; and the value of every
    field of every row stands in the line of the row, under the column of
    its key. *)
Theorem write_csv_table (rows : list record) (file : option (list row)) :
  (rows = [] -> WhoScored._write_csv rows file = (file, true))
  /\ (rows <> [] -> exists content,
        WhoScored._write_csv rows file = (Some content, true)
        /\ length content = S (length rows)
        /\ Forall (fun line => length line = length (WhoScored.csv_columns rows))
             content
        /\ NoDup (WhoScored.csv_columns rows)
        /\ take 9 (WhoScored.csv_columns rows) = WhoScored.base_columns
        /\ (forall i r key v, rows !! i = Some r -> r !! key = Some v ->
              exists j, WhoScored.csv_columns rows !! j = Some key
                        /\ content !! S i ≫= (.!! j) = Some v)).
Proof.
  split; [by intros ->|]. intros Hrows.
  assert (Hcall : WhoScored._write_csv rows file
            = let (written, ok) :=
                WhoScored.writerows (WhoScored.csv_columns rows) rows
                  [WhoScored.csv_columns rows] in
              (Some written, ok)).
  { destruct rows; [congruence | reflexivity]. }
  destruct (csv_columns_spec rows) as (extra & Heq & Hsorted & Hextra).
  assert (Hcover : forall r key, r ∈ rows -> key ∈ dom r ->
            key ∈ WhoScored.csv_columns rows).
  { intros r key Hr Hkey. rewrite Heq, elem_of_app, Hextra.
    destruct (decide (key ∈ WhoScored.base_columns)); [tauto|].
    right. split; [done|]. by exists r. }
  exists (WhoScored.csv_columns rows
          :: List.map (row_of (WhoScored.csv_columns rows)) rows).
  split; [|split; [|split; [|split; [|split]]]].
  - rewrite Hcall, writerows_all; [reflexivity | exact Hcover].
  - simpl. by rewrite length_map.
  - constructor; [done|]. apply Forall_fmap, Forall_true.
    intros r. apply length_map.
  - rewrite Heq. apply NoDup_app. split; [apply base_columns_distinct|].
    split; [|by apply Sorted_lexico_NoDup].
    intros key Hbase [Hnot _]%Hextra. done.
  - rewrite Heq. by rewrite take_app_length' by reflexivity.
  - intros i r key v Hi Hv.
    destruct (columns_cell (WhoScored.csv_columns rows) r key v) as (j & Hj & Hcell);
      [|done|].
    { apply (Hcover r); [by eapply list_elem_of_lookup_2|].
      apply elem_of_dom. by exists v. }
    exists j. split; [done|]. simpl. by rewrite list_lookup_fmap, Hi.
Qed.

End Columns.

(* --------------------------------------------------------------------- *)
(** ** Further properties: the run of the SoFIFA stats scraper *)
(* --------------------------------------------------------------------- *)

Module StatsRun.
Import SoFIFA Samples Schema Persistence.

Lemma add_event_fields (e : event) (self : scraper) :
  columns (add_event e self) = columns self
  /\ csv_initialized (add_event e self) = csv_initialized self
  /\ player_stats (add_event e self) = player_stats self
  /\ output (add_event e self) = output self.
Proof. done. Qed.

Section Invariant.
Variable site : nat -> nat -> visit.
(** A property of the scraper that no logged event and no save of a named
    record breaks. *)
Variable I : scraper -> Prop.
Hypothesis I_event : forall e self, I self -> I (add_event e self).
Hypothesis I_save : forall stats self, named stats = true -> I self ->
  I (save_player_to_csv (append_stats stats self) stats).1.

Lemma before_visit_invariant (retries idx : nat) (url : str) (self : scraper) :
  I self -> I (before_visit retries idx url self).
Proof.
  intros HI. unfold before_visit.
  destruct (0 <? retries)%nat, (1 <? idx)%nat; auto.
Qed.

Lemma attempts_invariant (remaining : nat) :
  forall retries idx url self,
  I self -> I (attempts site remaining retries idx url self).1.
Proof.
  induction remaining as [|remaining IH]; intros retries idx url self HI; [done|].
  cbn [attempts]. cbv zeta.
  pose proof (before_visit_invariant retries idx url self HI) as HI'.
  destruct (site idx retries) as [|c1 c2 stats]; [by apply IH|].
  destruct (_ && _); [by apply IH|].
  destruct (truthy _) eqn:Hname; [|by apply IH].
  pose proof (I_save stats _ Hname HI') as HI''.
  destruct (save_player_to_csv _ stats) as [saved []]; [done|]. by apply IH.
Qed.

Lemma scrape_from_invariant (urls : list str) :
  forall idx self, I self -> I (scrape_from site idx urls self).
Proof.
  induction urls as [|url urls IH]; intros idx self HI; [done|].
  cbn [scrape_from]. apply IH. unfold scrape_one.
  pose proof (attempts_invariant max_retries 0 idx url self HI) as HI'.
  destruct (attempts site max_retries 0 idx url self) as [r ok].
  cbn [fst snd] in *. destruct ok; auto.
Qed.

Lemma scrape_player_stats_invariant (player_urls : list str)
    (max_players : option nat) (self : scraper) :
  I self -> I (scrape_player_stats site player_urls max_players self).
Proof. intros HI. unfold scrape_player_stats. by apply scrape_from_invariant. Qed.
End Invariant.

Lemma save_consistent (old : option (list row)) (stats : record) (self : scraper) :
  sink_consistent old self ->
  sink_consistent old (save_player_to_csv (append_stats stats self) stats).1.
Proof.
  unfold sink_consistent. destruct (player_stats self) as [|first rest] eqn:Hstats.
  - intros (Hcols & Hinit & Hout).
    unfold save_player_to_csv, append_stats.
    cbn [columns csv_initialized output player_stats log fst].
    rewrite Hcols, Hinit, Hstats, andb_false_r. cbn [app omap list_omap].
    rewrite dict_to_list_accepts by apply column_order_covers. done.
  - cbv zeta. intros (Hcols & Hinit & Hout).
    destruct (later_call (append_stats stats self) stats
                (_get_column_order first)
                (_get_column_order first
                 :: omap (_dict_to_list (_get_column_order first)) (first :: rest)))
      as (Hinit' & Hcols' & Hout'); [done..|].
    assert (Hstats' : player_stats (save_player_to_csv (append_stats stats self) stats).1
                      = first :: rest ++ [stats]).
    { cbn [save_player_to_csv append_stats player_stats fst]. by rewrite Hstats. }
    rewrite Hstats'. split; [done|]. split; [done|]. rewrite Hout'.
    change (first :: rest ++ [stats]) with ((first :: rest) ++ [stats]).
    rewrite omap_app. cbn [omap list_omap].
    by destruct (_dict_to_list (_get_column_order first) stats).
Qed.

(** X11. The memory and the file of the stats scraper agree throughout a
    run, whatever the pages do. A run that starts on a consistent sink
    ends on one: when no record was collected the schema is unset and the
    file is as the run found it; otherwise the schema is the column order
    of the first record collected and the file is the header followed by
    the rows of the collected records the writer accepted, in their
    order. Every record collected has a name. *)
Theorem run_keeps_sink_consistent (site : nat -> nat -> visit)
    (player_urls : list str) (max_players : option nat)
    (old : option (list row)) (self : scraper) :
  sink_consistent old self ->
  Forall (fun stats => named stats = true) (player_stats self) ->
  let final := scrape_player_stats site player_urls max_players self in
  sink_consistent old final
  /\ Forall (fun stats => named stats = true) (player_stats final).
Proof.
  intros Hsink Hnamed final. subst final.
  apply (scrape_player_stats_invariant site
           (fun self => sink_consistent old self
                        /\ Forall (fun stats => named stats = true) (player_stats self))).
  - intros e s [H1 H2]. by split.
  - intros stats s Hname [H1 H2]. split; [by apply save_consistent|].
    cbn [save_player_to_csv append_stats player_stats fst].
    apply Forall_app. split; [done|]. by constructor.
  - by split.
Qed.

(** A run over two URLs that both give the record of Messi: the file is
    the header and two rows. *)
Lemma run_keeps_sink_consistent_witness :
  sink_consistent None
    (scrape_player_stats always_messi [lit "/player/1"; lit "/player/2"] None
       (fresh None)).
Proof.
  apply (run_keeps_sink_consistent always_messi
           [lit "/player/1"; lit "/player/2"] None None (fresh None)).
  - by repeat split.
  - constructor.
Defined.

Lemma save_log (self : scraper) (stats : record) :
  log (save_player_to_csv self stats).1 = log self
  /\ player_stats (save_player_to_csv self stats).1 = player_stats self.
Proof. done. Qed.

Lemma before_visit_counts (retries idx : nat) (url : str) (self : scraper) :
  navigations (before_visit retries idx url self) = S (navigations self)
  /\ player_stats (before_visit retries idx url self) = player_stats self.
Proof.
  unfold before_visit, navigations.
  destruct (0 <? retries)%nat, (1 <? idx)%nat; simpl;
    rewrite ?List.filter_app, ?length_app; simpl; split; (done || lia).
Qed.

Lemma before_visit_sink (retries idx : nat) (url : str) (self : scraper) :
  columns (before_visit retries idx url self) = columns self
  /\ csv_initialized (before_visit retries idx url self) = csv_initialized self
  /\ output (before_visit retries idx url self) = output self.
Proof. unfold before_visit. by destruct (0 <? retries)%nat, (1 <? idx)%nat. Qed.




Lemma refused_attempts (site : nat -> nat -> visit) (idx : nat) (url : str)
    (stats : record) (cols : list str) (content : list row) (remaining : nat) :
  _dict_to_list cols stats = None ->
  forall retries self,
  (forall r, retries <= r < retries + remaining ->
     exists c1 c2, site idx r = Loaded c1 c2 stats
       /\ challenge_detected c1 && challenge_still_present c2 = false) ->
  named stats = true ->
  columns self = Some cols -> csv_initialized self = true ->
  output self = Some content ->
  let r := attempts site remaining retries idx url self in
  r.2 = false
  /\ player_stats r.1 = player_stats self ++ replicate remaining stats
  /\ output r.1 = Some content
  /\ columns r.1 = Some cols
  /\ navigations r.1 = navigations self + remaining.
Proof.
  intros Hrefused. induction remaining as [|remaining IH];
    intros retries self Hsite Hname Hcols Hinit Hout.
  { simpl. rewrite app_nil_r. repeat split; (done || lia). }
  cbn [attempts]. cbv zeta.
  destruct (Hsite retries ltac:(lia)) as (c1 & c2 & -> & ->).
  unfold named in Hname. rewrite Hname.
  destruct (before_visit_counts retries idx url self) as (Hn & Hp).
  destruct (before_visit_sink retries idx url self) as (Hc & Hi & Ho).
  rewrite Hinit in Hi.
  set (self' := before_visit retries idx url self) in *.
  destruct (later_call (append_stats stats self') stats cols content)
    as (Hinit' & Hcols' & Hout');
    [exact Hi | exact (eq_trans Hc Hcols) | exact (eq_trans Ho Hout) |].
  assert (Hok : (save_player_to_csv (append_stats stats self') stats).2 = false).
  { unfold save_player_to_csv. cbn [snd append_stats columns].
    rewrite Hc, Hcols. by rewrite Hrefused. }
  destruct (save_log (append_stats stats self') stats) as [Hlog Hstats].
  rewrite Hrefused in Hout'. cbn [option_list] in Hout'. rewrite app_nil_r in Hout'.
  destruct (save_player_to_csv (append_stats stats self') stats) as [saved ok].
  cbn [fst snd] in *. subst ok. cbv iota.
  destruct (IH (S retries) saved) as (H1 & H2 & H3 & H4 & H5); try done.
  { intros r Hr. apply Hsite. lia. }
  split; [done|]. rewrite H2, H3, H4, H5, Hstats. cbn [append_stats player_stats].
  rewrite Hp, <- app_assoc. cbn [replicate app].
  assert (Hnav : navigations saved = S (navigations self)).
  { rewrite <- Hn. unfold navigations. by rewrite Hlog. }
  rewrite Hnav. repeat split; (done || lia).
Qed.

(** X13. A record the writer refuses is asked for again. When the page of
    a URL loads at each of the five attempts with a named record that has
    a key outside the schema, the record is put in memory five times,
    no row is written, the file stays as it was, and the URL is skipped
    after five navigations. *)
Theorem refused_record_is_retried (site : nat -> nat -> visit) (idx : nat)
    (url : str) (stats : record) (key : str) (cols : list str)
    (content : list row) (self : scraper) :
  columns self = Some cols -> csv_initialized self = true ->
  output self = Some content ->
  named stats = true -> key ∈ dom stats -> key ∉ cols ->
  (forall r, r < max_retries ->
     exists c1 c2, site idx r = Loaded c1 c2 stats
       /\ challenge_detected c1 && challenge_still_present c2 = false) ->
  let after := scrape_one site idx url self in
  player_stats after = player_stats self ++ replicate 5 stats
  /\ output after = Some content
  /\ columns after = Some cols
  /\ navigations after = navigations self + 5
  /\ last (log after) = Some (Skipped url).
Proof.
  intros Hcols Hinit Hout Hname Hkey Hout_of Hsite after. subst after.
  unfold scrape_one.
  destruct (refused_attempts site idx url stats cols content max_retries
              (dict_to_list_rejects cols stats key Hkey Hout_of) 0 self)
    as (H1 & H2 & H3 & H4 & H5); try done.
  { intros r Hr. apply Hsite. lia. }
  destruct (attempts site max_retries 0 idx url self) as [r ok].
  cbn [fst snd] in *. subst ok. cbv iota.
  unfold navigations in *. unfold add_event. cbn [log output columns player_stats].
  rewrite List.filter_app, length_app, last_snoc, H5.
  cbn [List.filter is_goto length]. unfold max_retries. repeat split; (done || lia).
Qed.

(** After the record of Pedri has set the schema, the record of Messi,
    which has the field [zone], is refused at every attempt. *)
Lemma refused_record_is_retried_witness :
  player_stats (scrape_one always_messi 2 (lit "/player/2") after_pedri)
  = [rec_pedri; rec_messi; rec_messi; rec_messi; rec_messi; rec_messi]
  /\ output (scrape_one always_messi 2 (lit "/player/2") after_pedri)
     = output after_pedri.
Proof.
  destruct (refused_record_is_retried always_messi 2 (lit "/player/2") rec_messi
              (lit "zone") [lit "player_id"; lit "name"]
              [[lit "player_id"; lit "name"]; [lit "251854"; lit "Pedri"]]
              after_pedri)
    as (H1 & H2 & _).
  - reflexivity.
  - reflexivity.
  - reflexivity.
  - reflexivity.
  - apply elem_of_dom. eexists. reflexivity.
  - rewrite !elem_of_cons, elem_of_nil. intros [H|[H|[]]]; cbv in H; discriminate H.
  - intros r _. by exists (lit "<html>player</html>"), [].
  - split; [exact H1 | by rewrite H2].
Defined.

Lemma universal_newlines_id (s : str) :
  Forall (fun c => c <> 13%N) s -> universal_newlines s = s.
Proof.
  induction 1 as [|c s Hc _ IH]; [done|]. cbn [universal_newlines].
  rewrite (proj2 (N.eqb_neq c 13) Hc). by rewrite IH.
Qed.

Lemma load_url_file (urls : list str) :
  load_player_urls (PlayerURLs.url_file urls)
  = Some (List.map universal_newlines urls).
Proof.
  unfold load_player_urls, PlayerURLs.url_file. f_equal.
  induction urls as [|url urls IH]; [done|].
  cbn [List.map omap list_omap head]. by rewrite IH.
Qed.

Lemma load_printable (urls : list str) :
  Forall (Forall (fun c => (32 <= c < 127)%N)) urls ->
  load_player_urls (PlayerURLs.url_file urls) = Some urls.
Proof.
  intros Hurls. rewrite load_url_file. f_equal.
  induction Hurls as [|url urls Hurl _ IH]; [done|]. cbn [List.map].
  rewrite IH. f_equal. apply universal_newlines_id.
  eapply Forall_impl; [exact Hurl|]. intros c Hc. cbv beta in Hc. lia.
Qed.

(** X14. The stats scraper reads back what the URL scraper saved, for
    URLs of printable ASCII characters (as the [href] of a link is): the
    file [save_urls_to_csv] writes loads as the URLs collected, each
    once, in the order of their first occurrences. The file is read
    without [newline='']: a carriage return inside a URL comes back as a
    line feed, so [a\rb] is loaded as [a\nb]. A file without a first line
    is an error. *)
Theorem load_after_save (self : PlayerURLs.scraper) (filename : str) :
  (Forall (Forall (fun c => (32 <= c < 127)%N)) (PlayerURLs.all_player_urls self) ->
   exists content,
     PlayerURLs.files (PlayerURLs.save_urls_to_csv self filename) !! filename
       = Some content
     /\ load_player_urls content
        = Some (PlayerURLs.unique (PlayerURLs.all_player_urls self)))
  /\ (forall urls, Forall (Forall (fun c => (32 <= c < 127)%N)) urls ->
        load_player_urls (PlayerURLs.url_file urls) = Some urls)
  /\ load_player_urls (PlayerURLs.url_file [[97; 13; 98]%N]) = Some [[97; 10; 98]%N]
  /\ load_player_urls [] = None.
Proof.
  split; [|split; [apply load_printable | split; reflexivity]].
  intros Hurls. eexists. split; [apply lookup_insert_eq|].
  apply load_printable. apply Forall_forall. intros url Hurl.
  apply (proj1 (Dedup.unique_elem_of _ _)) in Hurl.
  by apply (proj1 (Forall_forall _ _) Hurls).
Qed.

(** A URL collected twice is saved and loaded once. *)
Lemma load_after_save_witness :
  exists content,
    PlayerURLs.files
      (PlayerURLs.save_urls_to_csv
         {| PlayerURLs.all_player_urls := [lit "/player/1"; lit "/player/1"];
            PlayerURLs.offset := 0; PlayerURLs.page_num := 1;
            PlayerURLs.files := ∅; PlayerURLs.log := [] |}
         PlayerURLs.default_filename) !! PlayerURLs.default_filename
      = Some content
    /\ load_player_urls content = Some [lit "/player/1"].
Proof.
  destruct (load_after_save
              {| PlayerURLs.all_player_urls := [lit "/player/1"; lit "/player/1"];
                 PlayerURLs.offset := 0; PlayerURLs.page_num := 1;
                 PlayerURLs.files := ∅; PlayerURLs.log := [] |}
              PlayerURLs.default_filename) as [Hsaved _].
  destruct Hsaved as (content & Hfile & Hload).
  - cbn [PlayerURLs.all_player_urls].
    change (lit "/player/1") with [47; 112; 108; 97; 121; 101; 114; 47; 49]%N.
    repeat constructor; lia.
  - exists content. split; [exact Hfile|]. rewrite Hload. reflexivity.
Defined.

End StatsRun.

(* --------------------------------------------------------------------- *)
(** ** Further properties: the run of the SoFIFA URL scraper *)
(* --------------------------------------------------------------------- *)

Module Unique.
Import PlayerURLs.

Lemma filter_Forall_id {A} (P : A -> Prop) `{forall x, Decision (P x)} (l : list A) :
  Forall P l -> filter P l = l.
Proof.
  induction 1 as [|x l Hx _ IH]; [done|]. by rewrite filter_cons_True, IH.
Qed.

Lemma unique_loop_acc (urls : list str) :
  forall seen acc, unique_loop urls seen acc = acc ++ unique_loop urls seen [].
Proof.
  induction urls as [|url urls IH]; intros seen acc; simpl.
  - by rewrite app_nil_r.
  - destruct (decide (url ∈ seen)); [apply IH|].
    rewrite (IH _ (acc ++ [url])), (IH _ [url]). by rewrite <- app_assoc.
Qed.

Lemma unique_loop_fresh (urls : list str) :
  forall seen x, x ∈ unique_loop urls seen [] -> x ∉ seen.
Proof.
  induction urls as [|url urls IH]; intros seen x; simpl.
  - by rewrite elem_of_nil.
  - destruct (decide (url ∈ seen)) as [Hin|Hout]; [apply IH|].
    rewrite unique_loop_acc, elem_of_app, list_elem_of_singleton.
    intros [->|Hx]; [done|]. apply IH in Hx.
    intros Hseen. apply Hx. apply elem_of_union. by right.
Qed.

Lemma unique_loop_seen (urls : list str) (x : str) :
  forall seen,
  unique_loop urls ({[x]} ∪ seen) []
  = filter (fun y => y <> x) (unique_loop urls seen []).
Proof.
  induction urls as [|url urls IH]; intros seen; simpl; [done|].
  destruct (decide (url ∈ {[x]} ∪ seen)) as [Hin|Hout].
  - destruct (decide (url ∈ seen)) as [Hin'|Hout']; [apply IH|].
    assert (url = x) as ->.
    { apply elem_of_union in Hin as [Hin|Hin]; [|done].
      by apply elem_of_singleton in Hin. }
    rewrite (unique_loop_acc urls _ [x]), filter_app.
    rewrite filter_cons_False by (intros H; by apply H).
    cbn [filter list_filter app]. symmetry. apply filter_Forall_id.
    apply Forall_forall. intros y Hy%unique_loop_fresh ->.
    apply Hy, elem_of_union. left. by apply elem_of_singleton.
  - assert (url <> x /\ url ∉ seen) as [Hne Hout'].
    { split; intros H; apply Hout, elem_of_union;
        [left; by apply elem_of_singleton | by right]. }
    rewrite decide_False by done.
    rewrite (unique_loop_acc urls _ [url]), (unique_loop_acc urls ({[url]} ∪ seen) [url]).
    rewrite filter_app, filter_cons_True by done. cbn [filter list_filter app].
    f_equal. rewrite <- IH. f_equal.
    apply set_eq. intros y. rewrite !elem_of_union. tauto.
Qed.

(** X15. What [save_urls_to_csv] keeps of a list of URLs: the first
    occurrence of each URL, in the order of the list. The first URL is
    kept and taken out of what is kept of the rest; a list without a
    repeated URL is kept as it is, removing the duplicates twice is the
    same as once, and as many URLs are kept as [set] has elements, the
    count [main] prints. *)
Theorem unique_first_occurrences (url : str) (urls : list str) :
  unique [] = []
  /\ unique (url :: urls) = url :: filter (fun y => y <> url) (unique urls)
  /\ (NoDup urls -> unique urls = urls)
  /\ unique (unique urls) = unique urls
  /\ length (unique urls) = size (list_to_set urls : gset str).
Proof.
  assert (Hcons : forall x l,
            unique (x :: l) = x :: filter (fun y => y <> x) (unique l)).
  { intros x l. unfold unique. cbn [unique_loop].
    rewrite decide_False by apply not_elem_of_empty.
    by rewrite (unique_loop_acc l _ ([] ++ [x])), unique_loop_seen. }
  assert (Hfix : forall l, NoDup l -> unique l = l).
  { intros l Hnd. induction Hnd as [|x l Hx _ IH]; [done|].
    rewrite Hcons, IH. f_equal. apply filter_Forall_id, Forall_forall.
    by intros y Hy ->. }
  split; [done|]. split; [apply Hcons|]. split; [apply Hfix|].
  split; [apply Hfix, Dedup.unique_NoDup|].
  rewrite <- (size_list_to_set (C := gset str)) by apply Dedup.unique_NoDup.
  f_equal. apply set_eq. intros x.
  by rewrite !elem_of_list_to_set, Dedup.unique_elem_of.
Qed.

End Unique.

Module Listing.
Import PlayerURLs Samples.

Lemma before_visit_fields (retries : nat) (self : scraper) :
  navigations (before_visit retries self) = S (navigations self)
  /\ offset (before_visit retries self) = offset self
  /\ page_num (before_visit retries self) = page_num self
  /\ all_player_urls (before_visit retries self) = all_player_urls self
  /\ files (before_visit retries self) = files self.
Proof.
  unfold before_visit, navigations.
  destruct (0 <? retries)%nat, (1 <? page_num _)%nat; simpl;
    rewrite ?List.filter_app, ?length_app; simpl; repeat split; lia.
Qed.

Lemma collect_fields (player_urls : list str) (hasNext : bool) (self : scraper) :
  navigations (collect player_urls hasNext self) = navigations self
  /\ log (collect player_urls hasNext self) = log self
  /\ offset (collect player_urls hasNext self)
     = (if hasNext then offset self + page_size else offset self)
  /\ page_num (collect player_urls hasNext self)
     = (if hasNext then page_num self + 1 else page_num self)
  /\ all_player_urls (collect player_urls hasNext self)
     = all_player_urls self ++ player_urls
  /\ files (collect player_urls hasNext self)
     = <[default_filename := url_file (unique (all_player_urls self ++ player_urls))]>
         (files self).
Proof. unfold collect, navigations. by destruct hasNext. Qed.

Lemma loop_ended (site : nat -> nat -> visit) (fuel : nat) (self : scraper) :
  listing_loop site fuel false self = (true, self).
Proof. by destruct fuel. Qed.

Section Runs.
Variable site : nat -> nat -> visit.

Lemma before_visit_on_page (retries : nat) (self : scraper) :
  on_page self -> on_page (before_visit retries self).
Proof.
  intros (Hp & Ho & Hl). destruct (before_visit_fields retries self)
    as (_ & Ho' & Hp' & _). unfold on_page. rewrite Ho', Hp'.
  split; [done|]. split; [done|]. unfold before_visit.
  assert (Hgoto : forall o, Goto (offset self) = Goto o ->
            exists k, o = page_size * k /\ k < page_num self).
  { intros o [= <-]. exists (page_num self - 1). split; [done | lia]. }
  destruct (0 <? retries)%nat, (1 <? page_num _)%nat; cbn [add_event log offset];
    repeat (apply Forall_app; split); try done;
    repeat constructor; try done.
Qed.

Lemma collect_on_page (player_urls : list str) (hasNext : bool) (self : scraper) :
  on_page self -> on_page (collect player_urls hasNext self).
Proof.
  intros (Hp & Ho & Hl).
  destruct (collect_fields player_urls hasNext self) as (_ & Hl' & Ho' & Hp' & _).
  unfold on_page. rewrite Hl', Ho', Hp'. destruct hasNext; [|done].
  split; [lia|]. split; [unfold page_size in *; lia|].
  eapply Forall_impl; [exact Hl|]. intros e He o Heq.
  destruct (He o Heq) as (k & -> & Hk). exists k. split; [done | lia].
Qed.

Lemma attempts_on_page (remaining : nat) :
  forall retries has_next self,
  on_page self -> on_page (attempts site remaining retries has_next self).1.
Proof.
  induction remaining as [|remaining IH]; intros retries has_next self Hon; [done|].
  cbn [attempts]. cbv zeta.
  pose proof (before_visit_on_page retries self Hon) as Hon'.
  destruct (site _ _) as [|c1 c2 urls hn]; [by apply IH|].
  destruct (_ && _); [by apply IH|]. cbn [fst]. by apply collect_on_page.
Qed.

Lemma listing_loop_on_page (fuel : nat) :
  forall has_next self,
  on_page self -> on_page (listing_loop site fuel has_next self).2.
Proof.
  induction fuel as [|fuel IH]; intros has_next self Hon;
    destruct has_next; cbn [listing_loop snd]; try done.
  cbv zeta. by apply IH, attempts_on_page.
Qed.

(** X16. The offset of the listing follows the page number throughout a
    run, whatever the pages do and whether or not the run ends: the
    offset is [page_size] times the pages before the current one, so the
    number of pages [main] reports, [offset // page_size + 1], is the
    page number of the loop; and every navigation of the run asked for an
    offset that is a multiple of [page_size] below that of the next
    page. *)
Theorem offset_follows_page (fuel : nat) (files0 : gmap str (list row)) :
  let s := (main site fuel files0).2 in
  offset s = page_size * (page_num s - 1)
  /\ offset s / page_size + 1 = page_num s
  /\ Forall (fun e => forall o, e = Goto o ->
               exists k, o = page_size * k /\ k < page_num s) (log s).
Proof.
  intros s.
  assert (Hon : on_page s).
  { subst s. unfold main, scrape_all_player_urls.
    pose proof (listing_loop_on_page fuel true (fresh files0)) as Hloop.
    destruct (listing_loop site fuel true (fresh files0)) as [[] self];
      cbn [fst snd] in *; apply Hloop; (split; [done|]); split; (done || constructor). }
  destruct Hon as (Hp & Ho & Hl). split; [done|]. split; [|done].
  rewrite Ho, Nat.mul_comm, Nat.div_mul by done. lia.
Qed.

Lemma happy_loop (pages : list (list str)) (files0 : gmap str (list row)) :
  (forall n urls, pages !! n = Some urls ->
     exists c1 c2,
       site n (page_size * n)
         = Loaded c1 c2 urls (S n <? length pages)%nat
       /\ SoFIFA.challenge_detected c1 && SoFIFA.challenge_still_present c2 = false) ->
  forall fuel k self,
  navigations self = k -> offset self = page_size * k -> page_num self = S k ->
  all_player_urls self = concat (take k pages) ->
  (forall c, <[default_filename := c]> (files self)
             = <[default_filename := c]> files0) ->
  k < length pages -> length pages - k <= fuel ->
  exists s,
    listing_loop site fuel true self = (true, s)
    /\ all_player_urls s = concat pages
    /\ navigations s = length pages
    /\ page_num s = length pages
    /\ offset s = page_size * (length pages - 1)
    /\ files s = <[default_filename := url_file (unique (concat pages))]> files0.
Proof.
  intros Hsite. induction fuel as [|fuel IH];
    intros k self Hnav Hoff Hpage Hall Hfiles Hk Hfuel; [lia|].
  destruct (lookup_lt_is_Some_2 pages k Hk) as [urls Hurls].
  destruct (Hsite k urls Hurls) as (c1 & c2 & Hvisit & Hclean).
  destruct (before_visit_fields 0 self) as (Hn' & Ho' & Hp' & Ha' & Hf').
  assert (Hturn : attempts site max_retries 0 true self
            = (collect urls (S k <? length pages)%nat (before_visit 0 self),
               (S k <? length pages)%nat)).
  { unfold max_retries. cbn [attempts]. cbv zeta.
    by rewrite Ho', Hnav, Hoff, Hvisit, Hclean. }
  cbn [listing_loop]. cbv zeta. rewrite Hturn. cbn [fst snd].
  destruct (collect_fields urls (S k <? length pages)%nat (before_visit 0 self))
    as (G1 & _ & G3 & G4 & G5 & G6).
  rewrite Hn', Hnav in G1. rewrite Ho', Hoff in G3. rewrite Hp', Hpage in G4.
  assert (Htake : concat (take k pages) ++ urls = concat (take (S k) pages)).
  { rewrite (take_S_r pages k urls Hurls), concat_app. simpl. by rewrite app_nil_r. }
  rewrite Ha', Hall, Htake in G5.
  rewrite Hf', Ha', Hall, Htake, Hfiles in G6.
  destruct (S k <? length pages)%nat eqn:Hnext.
  - apply Nat.ltb_lt in Hnext.
    apply (IH (S k));
      [ exact G1 | rewrite G3; unfold page_size; lia | rewrite G4; lia
      | exact G5 | intros c; by rewrite G6, insert_insert_eq | done | lia ].
  - apply Nat.ltb_ge in Hnext. assert (S k = length pages) as Hlen by lia.
    rewrite loop_ended. eexists. split; [done|].
    rewrite take_ge in G5, G6 by lia.
    rewrite G1, G3, G4, G5, G6, <- Hlen. repeat split; try done.
    f_equal. lia.
Qed.

(** X17. A listing that answers completes. When the [n]-th navigation,
    asking for offset [page_size * n], loads page [n] of the listing
    without a challenge that stays, and says that a next page exists
    exactly when one does, [main] ends after one navigation for each
    page: the scraper holds the URLs of all pages in order, the page
    number is the number of pages, and [player_urls.csv] holds the first
    occurrences of the URLs, every other file being as it was. *)
Theorem listing_completes (pages : list (list str)) (fuel : nat)
    (files0 : gmap str (list row)) :
  pages <> [] -> length pages <= fuel ->
  (forall n urls, pages !! n = Some urls ->
     exists c1 c2,
       site n (page_size * n)
         = Loaded c1 c2 urls (S n <? length pages)%nat
       /\ SoFIFA.challenge_detected c1 && SoFIFA.challenge_still_present c2 = false) ->
  exists s,
    main site fuel files0 = (true, s)
    /\ all_player_urls s = concat pages
    /\ navigations s = length pages
    /\ page_num s = length pages
    /\ offset s = page_size * (length pages - 1)
    /\ files s = <[default_filename := url_file (unique (concat pages))]> files0.
Proof.
  intros Hpages Hfuel Hsite.
  destruct (happy_loop pages files0 Hsite fuel 0 (fresh files0))
    as (s & Hloop & Hall & Hnav & Hpage & Hoff & Hfiles); try done.
  { destruct pages; [done | simpl; lia]. }
  { lia. }
  exists (save_urls_to_csv s default_filename).
  unfold main, scrape_all_player_urls. rewrite Hloop. cbn [fst snd].
  split; [done|]. unfold save_urls_to_csv, navigations in *.
  cbn [all_player_urls log page_num offset files].
  rewrite Hall, Hfiles, insert_insert_eq. by repeat split.
Qed.

Lemma failed_attempts (remaining : nat) :
  forall retries has_next self,
  retries + remaining = max_retries ->
  (forall k, k < remaining ->
     fails (site (navigations self + k) (offset self)) = true) ->
  let r := attempts site remaining retries has_next self in
  navigations r.1 = navigations self + remaining
  /\ all_player_urls r.1 = all_player_urls self
  /\ files r.1 = files self
  /\ offset r.1 = offset self
  /\ page_num r.1 = page_num self
  /\ r.2 = match remaining with
           | O => has_next
           | S last =>
               has_next
               && negb (raised (site (navigations self + last) (offset self)))
           end.
Proof.
  induction remaining as [|remaining IH]; intros retries has_next self Hsum Hfail.
  { simpl. repeat split; lia. }
  cbn [attempts]. cbv zeta.
  destruct (before_visit_fields retries self) as (Hn & Ho & Hp & Ha & Hf).
  pose proof (Hfail 0 ltac:(lia)) as Hnow. rewrite Nat.add_0_r in Hnow.
  rewrite Ho.
  assert (Hnext : forall has_next',
    has_next' = (if raised (site (navigations self) (offset self))
                 then (if (max_retries <=? S retries)%nat then false else has_next)
                 else has_next) ->
    let r := attempts site remaining (S retries) has_next'
               (before_visit retries self) in
    navigations r.1 = navigations self + S remaining
    /\ all_player_urls r.1 = all_player_urls self
    /\ files r.1 = files self
    /\ offset r.1 = offset self
    /\ page_num r.1 = page_num self
    /\ r.2 = has_next
             && negb (raised (site (navigations self + remaining) (offset self)))).
  { intros has_next' Hnext.
    destruct (IH (S retries) has_next' (before_visit retries self))
      as (H1 & H2 & H3 & H4 & H5 & H6); [lia| |].
    { intros k Hk. rewrite Hn, Ho. replace (S (navigations self) + k)
        with (navigations self + S k) by lia. apply Hfail. lia. }
    cbv zeta. rewrite H1, H2, H3, H4, H5, H6, Hn, Ho, Hp, Ha, Hf.
    repeat split; try done; try lia.
    destruct remaining as [|last].
    - rewrite Nat.add_0_r, Hnext.
      replace (max_retries <=? S retries)%nat with true
        by (symmetry; apply Nat.leb_le; lia).
      destruct (raised _), has_next; done.
    - replace (S (navigations self) + last) with (navigations self + S last) by lia.
      rewrite Hnext.
      replace (max_retries <=? S retries)%nat with false
        by (symmetry; apply Nat.leb_gt; lia).
      by destruct (raised (site (navigations self) _)). }
  destruct (site (navigations self) (offset self)) as [|c1 c2 urls hn] eqn:Hvisit.
  - apply Hnext. done.
  - cbn [fails] in Hnow. rewrite Hnow. apply Hnext. done.
Qed.

(** X18. Three failed passes on a page. When the three attempts the
    listing loop makes for a page all fail, by an exception or by a
    challenge that stays, the loop has made three navigations and
    collected nothing: URLs, files, offset and page number are as before.
    The listing ends there exactly when the third attempt raised an
    exception, whatever the first two did; when the third attempt met a
    challenge, [has_next] is still true and the page is tried again. *)
Theorem three_failed_passes (fuel : nat) (self : scraper) :
  (forall k, k < 3 -> fails (site (navigations self + k) (offset self)) = true) ->
  let third := site (navigations self + 2) (offset self) in
  let r := attempts site max_retries 0 true self in
  navigations r.1 = navigations self + 3
  /\ all_player_urls r.1 = all_player_urls self
  /\ files r.1 = files self
  /\ offset r.1 = offset self
  /\ page_num r.1 = page_num self
  /\ r.2 = negb (raised third)
  /\ (raised third = true -> listing_loop site (S fuel) true self = (true, r.1))
  /\ (raised third = false ->
      listing_loop site (S fuel) true self = listing_loop site fuel true r.1).
Proof.
  intros Hfail third r.
  destruct (failed_attempts max_retries 0 true self) as (H1 & H2 & H3 & H4 & H5 & H6);
    [done | exact Hfail |].
  fold r in H1, H2, H3, H4, H5, H6. cbn [max_retries andb] in H6. fold third in H6.
  repeat split; try done.
  - intros Hraised. cbn [listing_loop]. cbv zeta. fold r.
    rewrite H6, Hraised. cbn [negb]. apply loop_ended.
  - intros Hraised. cbn [listing_loop]. cbv zeta. fold r.
    by rewrite H6, Hraised.
Qed.

End Runs.

(** The two pages of the sample listing: three URLs, one navigation for
    each page. *)
Lemma listing_completes_witness :
  exists s, main two_listing_pages 5 ∅ = (true, s)
    /\ all_player_urls s
       = [lit "/player/1"; lit "/player/2"; lit "/player/1";
          lit "/player/2"; lit "/player/3"]
    /\ navigations s = 2.
Proof.
  destruct (listing_completes two_listing_pages
              [[lit "/player/1"; lit "/player/2"; lit "/player/1"];
               [lit "/player/2"; lit "/player/3"]] 5 ∅)
    as (s & Hmain & Hall & Hnav & _).
  - done.
  - simpl. lia.
  - intros [|[|n]] urls Hurls; simplify_eq/=.
    + exists (lit "<html>players</html>"), []. by split.
    + exists (lit "<html>players</html>"), []. by split.
  - exists s. by repeat split.
Defined.

(** Two challenges that stay and then an exception: the listing ends
    after three navigations, with nothing collected. *)
Lemma three_failed_passes_witness :
  (listing_loop challenged_then_raising 1 true (fresh ∅)).1 = true
  /\ navigations (attempts challenged_then_raising max_retries 0 true (fresh ∅)).1
     = 3.
Proof.
  destruct (three_failed_passes challenged_then_raising 0 (fresh ∅))
    as (Hnav & _ & _ & _ & _ & _ & Hends & _).
  - intros [|[|[|k]]] Hk; (reflexivity || lia).
  - split; [|exact Hnav]. by rewrite Hends.
Defined.

(** X19. Every offset has a listing URL of its own: offset 0 asks for
    the base URL itself, a positive offset for the base URL followed by
    [&offset=] and the offset in decimal, and two offsets give the same
    URL only when they are the same. *)
Theorem page_url_injective (base_url : str) (offset1 offset2 : nat) :
  page_url base_url 0 = base_url
  /\ (page_url base_url offset1 = page_url base_url offset2 <-> offset1 = offset2).
Proof.
  split; [done|]. split; [|by intros ->].
  assert (Hlit : forall s t, lit s = lit t -> s = t).
  { assert (Hmap : forall l1 l2 : list ascii,
              List.map N_of_ascii l1 = List.map N_of_ascii l2 -> l1 = l2).
    { induction l1 as [|a l1 IH]; intros [|b l2] Hl; try done.
      injection Hl as Ha Hl. f_equal; [|by apply IH].
      by rewrite <- (ascii_N_embedding a), <- (ascii_N_embedding b), Ha. }
    intros s t Heq%Hmap.
    by rewrite <- (string_of_list_ascii_of_string s), Heq,
      string_of_list_ascii_of_string. }
  assert (Hlonger : forall o, base_url <> base_url ++ lit "&offset=" ++ str_of_nat o).
  { intros o Heq. apply (f_equal length) in Heq.
    rewrite !length_app in Heq. simpl in Heq. lia. }
  unfold page_url.
  destruct offset1 as [|o1], offset2 as [|o2]; cbn [Nat.ltb Nat.leb]; try done.
  - intros Heq. by apply Hlonger in Heq.
  - intros Heq. symmetry in Heq. by apply Hlonger in Heq.
  - intros Heq. apply app_inv_head, app_inv_head in Heq.
    unfold str_of_nat in Heq. apply Hlit in Heq. by apply (inj pretty) in Heq.
Qed.

End Listing.

(* --------------------------------------------------------------------- *)
(** ** Further properties: the tables of an FBref page *)
(* --------------------------------------------------------------------- *)

Module Fetch.
Import FBref PyStrFacts.

Section Tables.
Context {Body DataFrame : Type}.
Variable extract : Body -> option str -> option DataFrame.

Lemma all_prefix (id : str) :
  startswith id (lit "all_") = true -> id = lit "all_" ++ drop 4 id.
Proof. intros [post ->]%startswith_spec. done. Qed.

Lemma collect_tables_snoc (divs : list (str * Body)) (div : str * Body)
    (table_id : option str) :
  collect_tables extract (divs ++ [div]) table_id
  = (if startswith div.1 (lit "all_") then
       if bool_decide (is_Some table_id /\ table_id <> Some (drop 4 div.1))
       then collect_tables extract divs table_id
       else match extract div.2 (Some (drop 4 div.1)) with
            | Some df => <[drop 4 div.1 := df]> (collect_tables extract divs table_id)
            | None => collect_tables extract divs table_id
            end
     else collect_tables extract divs table_id).
Proof. unfold collect_tables. by rewrite foldl_app. Qed.

Lemma last_snoc_option {A} (l : list A) (o : option A) :
  last (l ++ option_list o) = match o with Some x => Some x | None => last l end.
Proof. destruct o; simpl; [apply last_snoc | by rewrite app_nil_r]. Qed.

Lemma last_table_read (divs : list (str * Body)) (table_id : option str)
    (key : str) :
  collect_tables extract divs table_id !! key
  = if bool_decide (is_Some table_id /\ table_id <> Some key) then None
    else last (omap (table_in extract key) divs).
Proof.
  induction divs as [|div divs IH] using rev_ind.
  { unfold collect_tables. cbn [foldl]. rewrite lookup_empty. by case_bool_decide. }
  rewrite collect_tables_snoc, omap_app. cbn [omap list_omap].
  change (from_option (fun y => [y]) [] (table_in extract key div) ++ [])
    with (option_list (table_in extract key div) ++ []).
  assert (Hlast : last (omap (table_in extract key) divs ++ match table_in extract key div with
                                              | Some y => [y]
                                              | None => []
                                              end)
                  = match table_in extract key div with
                    | Some x => Some x
                    | None => last (omap (table_in extract key) divs)
                    end).
  { destruct (table_in extract key div); simpl; [apply last_snoc | by rewrite app_nil_r]. }
  assert (Hsame : table_in extract key div = None ->
            collect_tables extract divs table_id !! key
            = if bool_decide (is_Some table_id /\ table_id <> Some key) then None
              else last (omap (table_in extract key) divs ++ match table_in extract key div with
                                                | Some y => [y]
                                                | None => []
                                                end)).
  { intros Hnone. by rewrite IH, Hlast, Hnone. }
  destruct (startswith div.1 (lit "all_")) eqn:Hstart.
  - apply all_prefix in Hstart. remember (drop 4 div.1) as k eqn:Hk. clear Hk.
    destruct (decide (is_Some table_id /\ table_id <> Some k)) as [Hskip|Hskip];
      [rewrite (bool_decide_true _ Hskip) | rewrite (bool_decide_false _ Hskip)].
    + destruct (decide (key = k)) as [->|Hne].
      * rewrite IH. by rewrite (bool_decide_true _ Hskip).
      * apply Hsame. unfold table_in. rewrite decide_False; [done|].
        rewrite Hstart. intros Heq%app_inv_head. done.
    + destruct (extract div.2 (Some k)) as [df|] eqn:Hdf.
      * destruct (decide (key = k)) as [->|Hne].
        -- rewrite lookup_insert_eq, (bool_decide_false _ Hskip).
           rewrite Hlast. unfold table_in. by rewrite decide_True, Hdf.
        -- rewrite lookup_insert_ne by done. apply Hsame.
           unfold table_in. rewrite decide_False; [done|].
           rewrite Hstart. intros Heq%app_inv_head. done.
      * apply Hsame. unfold table_in.
        destruct (decide (div.1 = lit "all_" ++ key)) as [Heq|Hne]; [|done].
        rewrite Hstart in Heq. apply app_inv_head in Heq. by rewrite <- Heq.
  - apply Hsame. unfold table_in. rewrite decide_False; [done|].
    intros Heq. assert (startswith div.1 (lit "all_") = true); [|congruence].
    apply startswith_spec. by exists key.
Qed.

(** X20. The table [fetch_fbref_tables] returns under an identifier is
    the one read from the last [div] of the page whose [id] is [all_]
    followed by the identifier and whose table could be read; there is
    none when no such [div] exists, or when another table was asked
    for. *)
Theorem fetched_table_is_last_read (divs : list (str * Body))
    (table_id : option str) (key : str) :
  collect_tables extract divs table_id !! key
  = if bool_decide (is_Some table_id /\ table_id <> Some key) then None
    else last (omap (table_in extract key) divs).
Proof. apply last_table_read. Qed.

Lemma some_table_found (divs : list (str * Body)) (table_id : option str) :
  collect_tables extract divs table_id <> ∅
  <-> exists div key,
        div ∈ divs /\ div.1 = lit "all_" ++ key
        /\ (table_id = None \/ table_id = Some key)
        /\ is_Some (extract div.2 (Some key)).
Proof.
  split.
  - intros Hempty. destruct (map_choose _ Hempty) as (key & df & Hdf).
    rewrite last_table_read in Hdf. case_bool_decide as Hskip; [done|].
    apply last_Some in Hdf as [l Hl].
    assert (Hin : df ∈ omap (table_in extract key) divs).
    { rewrite Hl. apply elem_of_app. right. by apply list_elem_of_singleton. }
    apply list_elem_of_omap in Hin as (div & Hdiv & Hhit). unfold table_in in Hhit.
    destruct (decide (div.1 = lit "all_" ++ key)) as [Hid|Hid]; [|done].
    exists div, key.
    split; [done|]. split; [done|]. split; [|by exists df].
    destruct table_id as [t'|]; [|by left]. right.
    destruct (decide (t' = key)) as [->|Hne]; [done|].
    exfalso. apply Hskip. split; [done | congruence].
  - intros (div & key & Hdiv & Hid & Hsel & [df Hdf]) Hempty.
    assert (Hkey : collect_tables extract divs table_id !! key = None)
      by (by rewrite Hempty, lookup_empty).
    rewrite last_table_read, bool_decide_false in Hkey.
    + assert (Hin : df ∈ omap (table_in extract key) divs).
      { apply list_elem_of_omap. exists div. split; [done|].
        unfold table_in. by rewrite decide_True. }
      destruct (omap (table_in extract key) divs) as [|x l] using rev_ind;
        [by apply elem_of_nil in Hin | by rewrite last_snoc in Hkey].
    + intros [Hsome Hne]. destruct Hsel as [->| ->]; [|done].
      by destruct Hsome.
Qed.

Lemma main_status (output : option str)
    (save : gmap str DataFrame -> str -> bool)
    (show : gmap str DataFrame -> bool)
    (fetched : option (gmap str DataFrame)) (status : Z) :
  main fetched output save show = Returned status ->
  status = 0%Z \/ status = 1%Z.
Proof.
  destruct fetched as [tables|]; unfold main; [|intros [= <-]; by right].
  destruct (bool_decide (tables = ∅)); [intros [= <-]; by right|].
  destruct (match output with Some (c :: dir) => save tables (c :: dir)
            | _ => show tables end); [intros [= <-]; by left | done].
Qed.

(** X21. When one table is asked for, [fetch_fbref_tables] returns at
    most that one entry. How [main] ends: with status 1 when the fetch
    raises, and when no [div] whose [id] begins with [all_] gave a table
    that the filter lets through; otherwise the tables are saved (with a
    non-empty [--output]) or printed, outside the [try]: [main] returns 0
    when that stage comes back, and ends in its exception when it does
    not. *)
Theorem fetch_single_table_and_status (divs : list (str * Body))
    (table_id : option str) (t : str) (output : option str)
    (save : gmap str DataFrame -> str -> bool)
    (show : gmap str DataFrame -> bool) :
  let tables := collect_tables extract divs table_id in
  let found :=
    exists div key,
      div ∈ divs /\ div.1 = lit "all_" ++ key
      /\ (table_id = None \/ table_id = Some key)
      /\ is_Some (extract div.2 (Some key)) in
  let staged :=
    match output with
    | Some (c :: dir) => save tables (c :: dir)
    | _ => show tables
    end in
  dom (collect_tables extract divs (Some t)) ⊆ {[t]}
  /\ size (collect_tables extract divs (Some t)) <= 1
  /\ (main (Some tables) output save show = Returned 0
      <-> found /\ staged = true)
  /\ (main (Some tables) output save show = Returned 1 <-> ~ found)
  /\ (main (Some tables) output save show = Raised
      <-> found /\ staged = false)
  /\ main None output save show = Returned 1
  /\ (forall fetched status,
        main fetched output save show = Returned status ->
        status = 0%Z \/ status = 1%Z).
Proof.
  intros tables found staged.
  assert (Hdom : dom (collect_tables extract divs (Some t)) ⊆ {[t]}).
  { intros key [df Hdf]%elem_of_dom. rewrite last_table_read in Hdf.
    case_bool_decide as Hskip; [done|]. apply elem_of_singleton.
    destruct (decide (key = t)) as [->|Hne]; [done|].
    exfalso. apply Hskip. split; [done | congruence]. }
  split; [exact Hdom|]. split.
  { rewrite <- size_dom. etrans; [apply (subseteq_size _ _ Hdom)|].
    by rewrite size_singleton. }
  pose proof (some_table_found divs table_id) as Hfound.
  fold tables found in Hfound.
  assert (Hmain : main (Some tables) output save show
            = if bool_decide (tables = ∅) then Returned 1
              else if staged then Returned 0 else Raised) by reflexivity.
  rewrite Hmain. split; [|split; [|split; [|split; [done|]]]].
  - case_bool_decide as Hempty.
    + split; [done|]. intros [Hf _]. by apply Hfound in Hf.
    + apply Hfound in Hempty. destruct staged; split; try done.
      * by intros [_ ?].
  - case_bool_decide as Hempty.
    + split; [|done]. intros _ Hf. by apply Hfound in Hf.
    + split; [by destruct staged|]. intros Hnot. exfalso. by apply Hnot, Hfound.
  - case_bool_decide as Hempty.
    + split; [done|]. intros [Hf _]. by apply Hfound in Hf.
    + apply Hfound in Hempty. destruct staged; split; try done.
      * by intros [_ ?].
  - apply main_status.
Qed.

End Tables.
End Fetch.

(* --------------------------------------------------------------------- *)
(** ** Further properties: the arguments of the WhoScored scraper *)
(* --------------------------------------------------------------------- *)

Module MainArgs.
Import WhoScored Samples Normalize StripFacts.

Lemma lstrip_by_snoc (p : char -> bool) (l : str) (c : char) :
  p c = false -> lstrip_by p (l ++ [c]) <> [].
Proof.
  intros Hc. induction l as [|a l IH]; simpl.
  - by rewrite Hc.
  - by destruct (p a).
Qed.

Lemma strip_cons_space (c : char) (s : str) :
  isspace c = true -> strip (c :: s) = strip s.
Proof. intros Hc. unfold strip, strip_by. simpl. by rewrite Hc. Qed.

Lemma strip_cons_word (c : char) (s : str) :
  isspace c = false -> strip (c :: s) <> [].
Proof.
  intros Hc. unfold strip, strip_by. simpl. rewrite Hc.
  unfold rstrip_by. simpl. intros Hnil.
  apply (f_equal (@rev char)) in Hnil. rewrite rev_involutive in Hnil.
  by apply lstrip_by_snoc in Hnil.
Qed.

Lemma parse_urls_none (s : str) : forall b,
  List.filter truthy (List.map strip (split_runs_from is_newline_comma b s)) = []
  <-> forallb blank s = true.
Proof.
  induction s as [|c s IH]; intros b; [done|].
  cbn [split_runs_from forallb]. unfold blank at 1.
  destruct (is_newline_comma c) eqn:Hsep; cbn [orb andb].
  - destruct b; [apply IH|]. cbn [List.map List.filter].
    change (truthy (strip [])) with false. cbv iota. apply IH.
  - specialize (IH false). destruct (isspace c) eqn:Hspace; cbn [andb].
    + destruct (split_runs_from is_newline_comma false s) as [|p ps];
        cbn [List.map List.filter] in *; rewrite strip_cons_space by done.
      * change (truthy (strip [])) with false. by cbv iota.
      * done.
    + assert (Hword : forall p, truthy (strip (c :: p)) = true).
      { intros p. pose proof (strip_cons_word c p Hspace).
        by destruct (strip (c :: p)). }
      destruct (split_runs_from is_newline_comma false s) as [|p ps];
        cbn [List.map List.filter]; by rewrite Hword.
Qed.

(** X22. [main] stops with [No URLs provided.] exactly when the text it
    parses, the [--urls] argument or else the line typed, holds nothing
    but commas, line breaks and white space. Otherwise the scraper gets
    the URLs [_parse_urls] finds in it, at least one, each without
    surrounding white space and separators. *)
Theorem main_needs_a_url (args_urls : option str) (typed : str) :
  let raw := match args_urls with Some (c :: s) => c :: s | _ => typed end in
  (main_urls args_urls typed = None <-> forallb blank raw = true)
  /\ (forallb blank raw = false ->
      exists u us, main_urls args_urls typed = Some (u :: us)
                   /\ _parse_urls raw = u :: us
                   /\ Forall clean_url (u :: us)).
Proof.
  intros raw. unfold main_urls. fold raw.
  pose proof (parse_urls_none raw false) as Hnone.
  pose proof (ParseUrls.split_pieces_free is_newline_comma raw false) as Hfree.
  assert (Hclean : Forall clean_url (_parse_urls raw)).
  { unfold _parse_urls, re_split_runs. apply Forall_forall. intros u Hu.
    apply list_elem_of_In, List.filter_In in Hu as [Hu Htruthy].
    apply List.in_map_iff in Hu as (p & <- & Hp). apply list_elem_of_In in Hp.
    split; [by destruct (strip p)|]. split; [apply strip_by_idemp|].
    apply strip_by_Forall. by apply (proj1 (Forall_forall _ _) Hfree). }
  fold (re_split_runs is_newline_comma raw) in Hnone. fold (_parse_urls raw) in Hnone.
  destruct (_parse_urls raw) as [|u us].
  - split; [by rewrite <- Hnone|]. intros Hblank. destruct Hnone as [Hnone _].
    rewrite Hnone in Hblank; done.
  - split.
    + split; [done|]. intros Hblank. by apply Hnone in Hblank.
    + intros _. by exists u, us.
Qed.

(** An argument of separators and blanks only. *)
Lemma main_needs_a_url_witness :
  main_urls (Some (lit " , ,")) [] = None
  /\ exists u us, main_urls (Some (lit "a.example, b.example")) [] = Some (u :: us).
Proof.
  split.
  - by apply (main_needs_a_url (Some (lit " , ,")) []).
  - destruct (main_needs_a_url (Some (lit "a.example, b.example")) []) as [_ H].
    destruct H as (u & us & H & _); [reflexivity|]. by exists u, us.
Defined.

Lemma split_on_Forall (P : char -> Prop) (sep : char) (s : str) :
  Forall P s -> Forall (Forall P) (split_on s sep).
Proof.
  induction 1 as [|c s Hc _ IH]; simpl; [by repeat constructor|].
  destruct (c =? sep)%N; [by repeat constructor|].
  destruct (split_on s sep) as [|p ps]; [by repeat constructor|].
  apply Forall_cons in IH as [Hp Hps]. by repeat constructor.
Qed.

Lemma ascii_lower_facts (c : char) :
  is_ascii c = true ->
  isspace (ascii_lower c) = isspace c
  /\ is_ascii (ascii_lower c) = true
  /\ ascii_lower (ascii_lower c) = ascii_lower c.
Proof.
  intros Hc. unfold ascii_lower.
  destruct (is_upper_AZ c) eqn:Hup; [|by rewrite Hup].
  assert (Hup' : is_upper_AZ (c + 32) = false) by (classes; lia).
  rewrite Hup'. split; [|split; [|done]].
  - assert (isspace c = false) as -> by (classes; lia). classes. lia.
  - classes. lia.
Qed.

Lemma head_free_lower (q : str) :
  Forall (fun c => is_ascii c = true) q ->
  head_free isspace (List.map ascii_lower q) = head_free isspace q.
Proof.
  intros [|c q' Hc _]; [done|]. simpl.
  by destruct (ascii_lower_facts c Hc) as [-> _].
Qed.

Section Tabs.
Variable lower : str -> str.
Hypothesis lower_on_ascii : forall s,
  forallb is_ascii s = true -> lower s = List.map ascii_lower s.

(** A name of [--tabs] as [main] hands it on is not changed by the
    second [strip().lower()] of [_selected_tabs]. *)
Lemma requested_name (piece : str) :
  Forall (fun c => is_ascii c = true) piece ->
  lower (strip piece) = List.map ascii_lower (strip piece)
  /\ lower (strip (lower (strip piece))) = List.map ascii_lower (strip piece).
Proof.
  intros Hascii.
  assert (Hq : Forall (fun c => is_ascii c = true) (strip piece))
    by by apply strip_by_Forall.
  assert (Hlow : lower (strip piece) = List.map ascii_lower (strip piece)).
  { apply lower_on_ascii. apply forallb_forall. intros c Hc%list_elem_of_In.
    by apply (proj1 (Forall_forall _ _) Hq). }
  split; [done|]. rewrite Hlow.
  assert (Hstrip : strip (List.map ascii_lower (strip piece))
                   = List.map ascii_lower (strip piece)).
  { apply strip_by_id.
    - rewrite head_free_lower by done. apply strip_by_head_free.
    - rewrite <- map_rev, head_free_lower.
      + apply strip_by_last_free.
      + apply Forall_forall. intros c Hc%list_elem_of_In%in_rev%list_elem_of_In.
        by apply (proj1 (Forall_forall _ _) Hq). }
  rewrite Hstrip, lower_on_ascii.
  - rewrite List.map_map. apply List.map_ext_in. intros c Hc%list_elem_of_In.
    apply ascii_lower_facts. by apply (proj1 (Forall_forall _ _) Hq).
  - apply forallb_forall. intros c Hc.
    apply List.in_map_iff in Hc as (c' & <- & Hc'%list_elem_of_In).
    apply ascii_lower_facts. by apply (proj1 (Forall_forall _ _) Hq).
Qed.

(** X23. The tabs [--tabs] selects. The argument is cut at the commas;
    a piece counts by its text without surrounding white space, in lower
    case, and an empty piece does not count. A tab of [TABS] is scraped
    exactly when a piece names it; when no piece counts, every tab is
    scraped. *)
Theorem main_tabs_selection (args_tabs : str) :
  forallb is_ascii args_tabs = true ->
  let pieces := split_on args_tabs 44 in
  let chosen :=
    _selected_tabs lower (init_tabs (main_tabs lower (Some args_tabs))) in
  (Forall (fun piece => strip piece = []) pieces -> chosen = TABS)
  /\ (~ Forall (fun piece => strip piece = []) pieces ->
      forall tab, tab ∈ chosen
        <-> tab ∈ TABS
            /\ exists piece, piece ∈ pieces
                 /\ List.map ascii_lower (strip piece) = name tab).
Proof.
  intros Hascii pieces chosen.
  assert (Hall : _selected_tabs lower (List.map name TABS) = TABS).
  { unfold _selected_tabs. apply Tabs.filter_all.
    pose proof (Tabs.tab_names_normal lower lower_on_ascii) as Hnormal.
    apply Forall_forall. intros tab Htab. apply bool_decide_eq_true.
    apply Tabs.selected_names_spec. exists (name tab). split.
    - apply list_elem_of_fmap. by exists tab.
    - by apply (proj1 (Forall_forall _ _) Hnormal). }
  assert (Hpieces : Forall (Forall (fun c => is_ascii c = true)) pieces).
  { apply split_on_Forall. apply Forall_forall. intros c Hc%list_elem_of_In.
    by apply (proj1 (forallb_forall _ _) Hascii). }
  assert (Hrequested : main_tabs lower (Some args_tabs)
            = match args_tabs with
              | [] => None
              | _ => Some (List.map (fun tab => lower (strip tab))
                             (List.filter (fun tab => truthy (strip tab)) pieces))
              end) by by destruct args_tabs.
  split.
  - intros Hblank. subst chosen. rewrite Hrequested.
    destruct args_tabs as [|c s]; [exact Hall|].
    replace (List.filter (fun tab => truthy (strip tab)) pieces) with (@nil str);
      [exact Hall|].
    symmetry. clear -Hblank. induction Hblank as [|p ps Hp _ IH]; [done|].
    simpl. by rewrite Hp.
  - intros Hsome tab. subst chosen. rewrite Hrequested.
    destruct args_tabs as [|c s].
    { exfalso. apply Hsome. by repeat constructor. }
    set (kept := List.filter (fun tab => truthy (strip tab)) pieces).
    assert (Hkept : exists t ts, List.map (fun tab => lower (strip tab)) kept = t :: ts).
    { destruct kept as [|p ps] eqn:Hk; [|by eexists _, _].
      exfalso. apply Hsome. apply Forall_forall. intros p Hp.
      destruct (strip p) eqn:Hs; [done|].
      assert (Hin : In p kept).
      { apply List.filter_In. split; [by apply list_elem_of_In | by rewrite Hs]. }
      by rewrite Hk in Hin. }
    destruct Hkept as (t & ts & Hk). rewrite Hk. cbn [init_tabs]. rewrite <- Hk.
    unfold _selected_tabs.
    rewrite list_elem_of_In, List.filter_In, <- list_elem_of_In.
    rewrite bool_decide_eq_true, Tabs.selected_names_spec.
    split; intros [Htab Hex]; (split; [done|]).
    + destruct Hex as (r & Hr & Hname).
      apply list_elem_of_In, List.in_map_iff in Hr as (p & <- & Hp).
      apply List.filter_In in Hp as [Hp _]. apply list_elem_of_In in Hp.
      exists p. split; [done|].
      destruct (requested_name p) as [_ Heq];
        [by apply (proj1 (Forall_forall _ _) Hpieces)|].
      by rewrite <- Heq.
    + destruct Hex as (p & Hp & Hname).
      destruct (requested_name p) as [Hlow Heq];
        [by apply (proj1 (Forall_forall _ _) Hpieces)|].
      exists (lower (strip p)). split; [|by rewrite Heq].
      apply list_elem_of_In, List.in_map_iff. exists p. split; [done|].
      apply List.filter_In. split; [by apply list_elem_of_In|].
      destruct (strip p) eqn:Hs; [|done]. simpl in Hname.
      assert (Hnames : Forall (fun tab => name tab <> []) TABS)
        by (repeat constructor; discriminate).
      by apply (proj1 (Forall_forall _ _) Hnames) in Htab.
Qed.
End Tabs.

(** [--tabs " XG, Summary ,,"] asks for the tab [xg]. *)
Lemma main_tabs_selection_witness :
  tab_spec "xg"
  ∈ _selected_tabs lower_ascii
      (init_tabs (main_tabs lower_ascii (Some (lit " XG, Summary ,,")))).
Proof.
  destruct (main_tabs_selection lower_ascii (fun s _ => eq_refl)
              (lit " XG, Summary ,,")) as [_ Hsome]; [reflexivity|].
  apply Hsome.
  - intros Hblank. apply Forall_cons in Hblank as [Hblank _]. discriminate Hblank.
  - split.
    + apply list_elem_of_In. simpl. tauto.
    + exists (lit " XG"). split; [|reflexivity].
      apply list_elem_of_In. simpl. tauto.
Defined.

End MainArgs.
